(** * hakase: the reactive render pipeline of the canvas sketches

    A shallow embedding of [src/main.ts] (the scrub-enabled sketch) and of
    the earlier looping sketch (the variant whose parameter record carries
    [duration]).

    Numbers.  A JavaScript [number] is modelled as a real number: the
    sketches use [Math.sqrt], [Math.sin], [Math.PI], [/] and [%], and
    every statement below is about the values these denote, not about
    their binary64 roundings; no value is NaN or infinite.

    Objects.  The objects folded by [scan] are finite maps from field
    names to values; the renderer reads a typed record.

    Streams.  An observable is modelled by the state its subscriptions
    hold and a step function from the events of the host (pointer
    events, panel edits, animation frames) to the values it emits. *)

From Stdlib Require Import Reals Lra Lia ZArith List Sorted.
From stdpp Require Import gmap strings.
Import ListNotations.

Local Open Scope R_scope.

(** ** Numbers *)

(** [a % b] of JavaScript on finite numbers with [b <> 0]: the remainder
    of the division truncated toward zero; its sign is the sign of [a]. *)
Definition Rtrunc (r : R) : Z :=
  if Rle_dec 0 r then Int_part r else (- Int_part (- r))%Z.

Definition Rfmod (a b : R) : R := a - b * IZR (Rtrunc (a / b)).

(** [const clamp = (value, min, max) => Math.min(Math.max(value, min), max)] *)
Definition clamp (value min max : R) : R := Rmin (Rmax value min) max.

(** ** Parameters and vectors *)

(** [paneParams] of [main.ts] as the renderer reads it. *)
Record PaneParams : Type := mkPaneParams {
  height : R;
  width : R;
  dimension : R;
  gapModifier : R;
  depthScalar : R;
  baseSize : R;
  color1 : string;
  color2 : string;
  color3 : string;
  color4 : string
}.

Record Vector : Type := mkVector { vx : R; vy : R; vz : R }.

(** The object returned by [projectVector]. *)
Record Projected : Type := mkProjected { px : R; py : R; ph : R; pw : R }.

(** ** Projector *)

Definition projectX (width normalizedX : R) : R := (width / 2) * (1 + normalizedX).
Definition projectY (height normalizedY : R) : R := (1 - normalizedY) * (height / 2).

Definition projectVector (v : Vector) (params : PaneParams) : Projected :=
  let h := vz v * depthScalar params * baseSize params in
  let w := vz v * depthScalar params * baseSize params in
  {| px := projectX (width params) (vx v);
     py := projectY (height params) (vy v);
     ph := h;
     pw := w |}.

(** ** Canvas *)

(** The calls and assignments the sketch performs on the canvas and on its
    2D context, in program order. *)
Inductive CanvasOp : Type :=
  | SetHeight (h : R)
  | SetWidth (w : R)
  | SetFillStyle (color : string)
  | FillRect (x y w h : R)
  | BeginPath
  | Arc (x y radius startAngle endAngle : R) (anticlockwise : bool)
  | Fill.

Definition drawCircle (x y radius : R) (color : string) : list CanvasOp :=
  [ BeginPath; Arc x y radius 0 (2 * PI) false; SetFillStyle color; Fill ].

(** The immediately-invoked arrow function of [drawVector]. *)
Definition bucketColor (params : PaneParams) (z : R) : string :=
  if Rlt_dec z 0.33 then color1 params
  else if Rlt_dec z 0.66 then color2 params
  else color3 params.

Definition drawVector (params : PaneParams) (v : Vector) : list CanvasOp :=
  let projectV := projectVector v params in
  let color := bucketColor params (vz v) in
  drawCircle (px projectV) (py projectV) (pw projectV / 2) color.

(** ** Field loops and renderer *)

(** [for (let i = lo; i < hi; i++) body(i)]: the counter takes the values
    [lo], [lo + 1], ... while it is below [hi], which is
    [ceil (hi - lo)] iterations when [lo < hi] and none otherwise. *)
Fixpoint loop_from {A : Type} (fuel : nat) (i : R) (body : R -> list A) : list A :=
  match fuel with
  | O => []
  | S fuel' => body i ++ loop_from fuel' (i + 1) body
  end.

Definition iterations (lo hi : R) : nat := Z.to_nat (- Int_part (- (hi - lo))).

Definition for_range {A : Type} (lo hi : R) (body : R -> list A) : list A :=
  loop_from (iterations lo hi) lo body.

(** The vector literal built in the body of the inner loop. *)
Definition fieldVector (dimension playhead i j : R) : Vector :=
  let x := i / dimension in
  let y := j / dimension in
  let r := sqrt (x ^ 2 + y ^ 2) / sqrt 2 in
  let t := sin (2 * (r + playhead) * PI) in
  {| vx := x; vy := y * ((t + r) / 2); vz := r |}.

(** The vectors handed to [drawVector] during one frame, in loop order. *)
Definition field (dimension playhead : R) : list Vector :=
  for_range (- dimension) dimension (fun i =>
    for_range (- dimension) dimension (fun j =>
      [ fieldVector dimension playhead i j ])).

(** The subscriber of the render stream: the body run for one
    [[values, playhead]] pair. *)
Definition render (values : PaneParams) (playhead : R) : list CanvasOp :=
  [ SetHeight (height values);
    SetWidth (width values);
    SetFillStyle (color1 values);
    FillRect 0 0 (width values) (height values) ] ++
  for_range (- dimension values) (dimension values) (fun i =>
    for_range (- dimension values) (dimension values) (fun j =>
      drawVector values (fieldVector (dimension values) playhead i j))).

(** The field generator as the specification words it: integer cells
    [i], [j] of [[-D, D)], [i] outer and [j] inner, both ascending. *)
Definition Zrange (lo : Z) (n : nat) : list Z :=
  map (fun k => (lo + Z.of_nat k)%Z) (seq 0 n).

Definition spec_point (D : Z) (p : R) (i j : Z) : Vector :=
  let x := IZR i / IZR D in
  let y_base := IZR j / IZR D in
  let r := sqrt (x ^ 2 + y_base ^ 2) / sqrt 2 in
  let t := sin (2 * PI * (r + p)) in
  {| vx := x; vy := y_base * ((t + r) / 2); vz := r |}.

Definition spec_field (D : Z) (p : R) : list Vector :=
  flat_map (fun i => map (fun j => spec_point D p i j) (Zrange (- D) (Z.to_nat (2 * D))))
           (Zrange (- D) (Z.to_nat (2 * D))).

Definition isArc (op : CanvasOp) : bool :=
  match op with Arc _ _ _ _ _ _ => true | _ => false end.

Definition isFillRect (op : CanvasOp) : bool :=
  match op with FillRect _ _ _ _ => true | _ => false end.

(** ** Parameter objects *)

Inductive value : Type :=
  | VNum (n : R)
  | VStr (s : string).

(** [{ ...acc, ...curr }]: the fields of [curr] win. *)
Definition spread (acc curr : gmap string value) : gmap string value := curr ∪ acc.

(** [scan(f, seed)]: one output per input, each the new accumulator. *)
Fixpoint scan {A B : Type} (f : B -> A -> B) (seed : B) (xs : list A) : list B :=
  match xs with
  | [] => []
  | x :: xs' => let acc := f seed x in acc :: scan f acc xs'
  end.

Definition paneParams : gmap string value :=
  <["height" := VNum 640]> (
  <["width" := VNum 640]> (
  <["dimension" := VNum 32]> (
  <["gapModifier" := VNum 0.1]> (
  <["depthScalar" := VNum 1]> (
  <["baseSize" := VNum 5]> (
  <["color1" := VStr "#222831"]> (
  <["color2" := VStr "#393e46"]> (
  <["color3" := VStr "#00ADB5"]> (
  <["color4" := VStr "#EEEEEE"]> ∅))))))))).

Definition timelineParams : gmap string value := <["duration" := VNum 0]> ∅.

Definition paneKeys : list string :=
  [ "height"; "width"; "dimension"; "gapModifier"; "depthScalar"; "baseSize";
    "color1"; "color2"; "color3"; "color4" ]%string.

(** [updatePaneParam(key, value)] sends [{ [key]: value }]. *)
Definition updateParam (key : string) (v : value) : gmap string value := {[ key := v ]}.

(** What a subscriber of [subject.pipe(scan(spread, defaults))] receives when
    the subject, created holding the empty object, is then sent [edits]. *)
Definition snapshots (defaults : gmap string value) (edits : list (string * value))
  : list (gmap string value) :=
  scan spread defaults (∅ :: map (fun e => updateParam e.1 e.2) edits).

Definition values_stream : list (string * value) -> list (gmap string value) :=
  snapshots paneParams.

(** The value most recently written to [key] by [edits], if any. *)
Fixpoint lastWrite (key : string) (edits : list (string * value)) : option value :=
  match edits with
  | [] => None
  | (k, v) :: rest =>
      match lastWrite key rest with
      | Some w => Some w
      | None => if decide (k = key) then Some v else None
      end
  end.

Definition getNum (o : gmap string value) (key : string) : option R :=
  match o !! key with Some (VNum n) => Some n | _ => None end.

Definition getStr (o : gmap string value) (key : string) : option string :=
  match o !! key with Some (VStr s) => Some s | _ => None end.

(** The typed view of a snapshot that the renderer reads. *)
Definition toParams (o : gmap string value) : option PaneParams :=
  h ← getNum o "height";
  w ← getNum o "width";
  d ← getNum o "dimension";
  g ← getNum o "gapModifier";
  ds ← getNum o "depthScalar";
  bs ← getNum o "baseSize";
  c1 ← getStr o "color1";
  c2 ← getStr o "color2";
  c3 ← getStr o "color3";
  c4 ← getStr o "color4";
  Some (mkPaneParams h w d g ds bs c1 c2 c3 c4).

(** ** Pointer geometry *)

(** [Math.atan2(y, x)], the angle of the point [(x, y)] in [(-PI, PI]]. *)
Definition atan2 (y x : R) : R :=
  if Rlt_dec 0 x then atan (y / x)
  else if Rlt_dec x 0 then
    (if Rle_dec 0 y then atan (y / x) + PI else atan (y / x) - PI)
  else if Rlt_dec 0 y then PI / 2
  else if Rlt_dec y 0 then - (PI / 2)
  else 0.

(** The [map] of [sliderValueChanges$], for a track whose [width] is not 0;
    every statement about a reading assumes as much. *)
Definition sliderFraction (clientX left width : R) : R :=
  clamp ((clientX - left) / width) 0 1.

(** The [map] of [indicatorChanges$]. *)
Definition circleFraction (clientX clientY left width top height : R) : R :=
  let pivotX := left + (width / 2) in
  let pivotY := top + (height / 2) in
  let deltaX := pivotX - clientX in
  let deltaY := pivotY - clientY in
  Rfmod (atan2 deltaY deltaX / (2 * PI) + 0.75) 1.

(** A renderer invocation: the [[values, playhead]] pair it is given. *)
Definition Frame : Type := gmap string value * R.

Definition unitValue (p : R) : Prop := 0 <= p <= 1.

Definition unitFrame (f : Frame) : Prop := unitValue f.2.

Definition halfOpenFrame (f : Frame) : Prop := 0 <= f.2 < 1.

Definition lastOr (d : R) (l : list R) : R := List.last l d.

(** ** The scrub-enabled sketch ([main.ts]) *)

Module Scrub.

Inductive Event : Type :=
  | SliderPointer (clientX left width : R)
  | CirclePointer (clientX clientY left width top height : R)
  | DurationEdit (v : R)
  | PaneEdit (key : string) (v : value)
  | AnimationFrame.

Record State : Type := mkState {
  values : gmap string value;          (* accumulator of the scan of values$ *)
  timelineSubject : gmap string value; (* value held by timelineSubject *)
  timeline : gmap string value;        (* accumulator of the live scan of timeline$ *)
  sliderValue : R;                     (* value replayed by sliderValue$ *)
  started : option R;                  (* start of the live animationFrames() *)
  playhead : R                         (* value replayed by frame$ *)
}.

(** The inner [switchMap] of [frame$] on a timeline snapshot arriving at
    time [now]: either [of(sliderValue)], or a fresh [animationFrames()]. *)
Definition onTimeline (now slider : R) (tl : gmap string value) : option R * list R :=
  match getNum tl "duration" with
  | Some duration => if Req_dec_T duration 0 then (None, [slider]) else (Some now, [])
  | None => (Some now, [])
  end.

(** The [map] applied to each animation frame. *)
Definition animated (slider duration elapsed : R) : R :=
  Rfmod (slider + Rfmod elapsed (duration * 1000) / (duration * 1000)) 1.

(** The outer [switchMap] on a new slider value: [timeline$] is subscribed
    anew, so its [scan] restarts from [timelineParams] and receives the
    object the subject currently holds. *)
Definition slide (now v : R) (st : State) : State * list R :=
  let tl := spread timelineParams (timelineSubject st) in
  let '(clock, out) := onTimeline now v tl in
  (mkState (values st) (timelineSubject st) tl v clock (lastOr (playhead st) out), out).

(** One host event at time [now]: the new state and the playheads that
    [frame$] emits. *)
Definition frameStep (now : R) (ev : Event) (st : State) : State * list R :=
  match ev with
  | SliderPointer clientX l w =>
      slide now (sliderFraction clientX l w) st
  | CirclePointer clientX clientY l w t h =>
      slide now (circleFraction clientX clientY l w t h) st
  | DurationEdit v =>
      let sent := updateParam "duration" (VNum v) in
      let tl := spread (timeline st) sent in
      let '(clock, out) := onTimeline now (sliderValue st) tl in
      (mkState (values st) sent tl (sliderValue st) clock (lastOr (playhead st) out), out)
  | PaneEdit _ _ => (st, [])
  | AnimationFrame =>
      match started st, getNum (timeline st) "duration" with
      | Some start, Some duration =>
          let p := animated (sliderValue st) duration (now - start) in
          (mkState (values st) (timelineSubject st) (timeline st) (sliderValue st)
                   (started st) p, [p])
      | _, _ => (st, [])
      end
  end.

(** [combineLatest([values$, frame$])]: a pair is delivered when either
    side emits, made of the latest value of each. *)
Definition step (now : R) (ev : Event) (st : State) : State * list Frame :=
  match ev with
  | PaneEdit key v =>
      let vs := spread (values st) (updateParam key v) in
      (mkState vs (timelineSubject st) (timeline st) (sliderValue st)
               (started st) (playhead st), [(vs, playhead st)])
  | _ =>
      let '(st', out) := frameStep now ev st in
      (st', map (fun p => (values st', p)) out)
  end.

(** The state once [init] has subscribed everything at time [now], and the
    first pair delivered. *)
Definition init (now : R) : State * list Frame :=
  let vs := spread paneParams ∅ in
  let tl := spread timelineParams ∅ in
  let '(clock, out) := onTimeline now 0 tl in
  let p := lastOr 0 out in
  (mkState vs ∅ tl 0 clock p, [(vs, p)]).

Fixpoint run (st : State) (evs : list (R * Event)) : State * list Frame :=
  match evs with
  | [] => (st, [])
  | (now, ev) :: rest =>
      let '(st1, out1) := step now ev st in
      let '(st2, out2) := run st1 rest in
      (st2, out1 ++ out2)
  end.

(** Every pair the renderer receives from start-up at [t0] through [evs]. *)
Definition delivered (t0 : R) (evs : list (R * Event)) : list Frame :=
  let '(st, first) := init t0 in first ++ (run st evs).2.

Fixpoint chronological (t : R) (evs : list (R * Event)) : Prop :=
  match evs with
  | [] => True
  | (now, _) :: rest => t <= now /\ chronological now rest
  end.

(** The control panel bounds [duration] below by 0, and the track of the
    linear slider has a width: at width 0 the quotient read by the pointer
    handler is not a number. *)
Definition inBounds (ev : Event) : Prop :=
  match ev with
  | DurationEdit v => 0 <= v
  | SliderPointer _ _ w => w <> 0
  | _ => True
  end.

(** Events that leave the clock subscription alone. *)
Definition keepsClock (ev : Event) : Prop :=
  match ev with PaneEdit _ _ | AnimationFrame => True | _ => False end.

(** What the panel can have left in [timelineSubject]. *)
Definition subjectOk (o : gmap string value) : Prop :=
  o = ∅ \/ exists v, 0 <= v /\ o = updateParam "duration" (VNum v).

(** What holds of the state at time [now] along a chronological run. *)
Definition Inv (now : R) (st : State) : Prop :=
  0 <= playhead st <= 1 /\
  0 <= sliderValue st <= 1 /\
  subjectOk (timelineSubject st) /\
  match started st with
  | Some start =>
      start <= now /\ forall d, getNum (timeline st) "duration" = Some d -> 0 < d
  | None => True
  end.

End Scrub.

(** ** The looping sketch (the variant without scrub inputs) *)

Module Loop.

Definition paneParams : gmap string value := <["duration" := VNum 5]> paneParams.

Inductive Event : Type :=
  | PaneEdit (key : string) (v : value)
  | AnimationFrame.

Record State : Type := mkState {
  values : gmap string value;   (* accumulator of the scan of values$ *)
  started : option R            (* start of the live animationFrames() *)
}.

(** The [switchMap] on a snapshot arriving at time [now]. *)
Definition onValues (now : R) (vs : gmap string value) : State * list Frame :=
  match getNum vs "duration" with
  | Some duration =>
      if Req_dec_T duration 0 then (mkState vs None, [(vs, 1)])
      else (mkState vs (Some now), [])
  | None => (mkState vs (Some now), [])
  end.

Definition step (now : R) (ev : Event) (st : State) : State * list Frame :=
  match ev with
  | PaneEdit key v => onValues now (spread (values st) (updateParam key v))
  | AnimationFrame =>
      match started st, getNum (values st) "duration" with
      | Some start, Some duration =>
          let x := Rmin ((now - start) / (duration * 1000)) 1 in
          if Rlt_dec x 1 then (st, [(values st, x)])       (* takeWhile passes *)
          else (mkState (values st) (Some now), [])        (* repeat() *)
      | _, _ => (st, [])
      end
  end.

Definition init (now : R) : State * list Frame :=
  onValues now (spread paneParams ∅).

Fixpoint run (st : State) (evs : list (R * Event)) : State * list Frame :=
  match evs with
  | [] => (st, [])
  | (now, ev) :: rest =>
      let '(st1, out1) := step now ev st in
      let '(st2, out2) := run st1 rest in
      (st2, out1 ++ out2)
  end.

Definition delivered (t0 : R) (evs : list (R * Event)) : list Frame :=
  let '(st, first) := init t0 in first ++ (run st evs).2.

Fixpoint chronological (t : R) (evs : list (R * Event)) : Prop :=
  match evs with
  | [] => True
  | (now, _) :: rest => t <= now /\ chronological now rest
  end.

(** The control panel bounds [duration] below by 0 and sends numbers. *)
Definition inBounds (ev : Event) : Prop :=
  match ev with
  | PaneEdit key v => key = "duration"%string -> exists d, v = VNum d /\ 0 <= d
  | AnimationFrame => True
  end.

Definition Inv (now : R) (st : State) : Prop :=
  (forall d, getNum (values st) "duration" = Some d -> 0 <= d) /\
  match started st with
  | Some start =>
      start <= now /\ forall d, getNum (values st) "duration" = Some d -> 0 < d
  | None => True
  end.

End Loop.

(** ** Relations between snapshots *)

Definition withColor4 (c : string) (p : PaneParams) : PaneParams :=
  mkPaneParams (height p) (width p) (dimension p) (gapModifier p) (depthScalar p)
               (baseSize p) (color1 p) (color2 p) (color3 p) c.

(** The two snapshots agree on every field except possibly [gapModifier]. *)
Definition sameButGap (p q : PaneParams) : Prop :=
  height p = height q /\ width p = width q /\ dimension p = dimension q /\
  depthScalar p = depthScalar q /\ baseSize p = baseSize q /\
  color1 p = color1 q /\ color2 p = color2 q /\ color3 p = color3 q /\
  color4 p = color4 q.

(** The parameters of the end-to-end example. *)
Definition exampleParams : PaneParams :=
  mkPaneParams 640 640 1 0.1 1 5 "#000" "#111" "#222" "#EEEEEE".

(** ** The playhead stream on its own *)

(** The playheads [frame$] emits along a list of host events; [fps$] and
    the renderer both listen to this one shared stream. *)
Fixpoint frameRun (st : Scrub.State) (evs : list (R * Scrub.Event))
  : Scrub.State * list R :=
  match evs with
  | [] => (st, [])
  | (now, ev) :: rest =>
      let '(st1, out1) := Scrub.frameStep now ev st in
      let '(st2, out2) := frameRun st1 rest in
      (st2, out1 ++ out2)
  end.

Definition isPaneEdit (ev : Scrub.Event) : bool :=
  match ev with Scrub.PaneEdit _ _ => true | _ => false end.

Definition notPaneEdit (te : R * Scrub.Event) : bool := negb (isPaneEdit te.2).

(** The clock of [frame$] runs exactly while the duration in effect is not
    0, and subscribing to [timeline$] anew yields the duration in effect. *)
Definition coherent (st : Scrub.State) : Prop :=
  (exists d, getNum (Scrub.timeline st) "duration" = Some d) /\
  (Scrub.started st = None <-> getNum (Scrub.timeline st) "duration" = Some 0) /\
  getNum (spread timelineParams (Scrub.timelineSubject st)) "duration" =
    getNum (Scrub.timeline st) "duration".

(** Two states that agree on everything [frame$] holds. *)
Definition frameEq (st st' : Scrub.State) : Prop :=
  Scrub.timelineSubject st = Scrub.timelineSubject st' /\
  Scrub.timeline st = Scrub.timeline st' /\
  Scrub.sliderValue st = Scrub.sliderValue st' /\
  Scrub.started st = Scrub.started st' /\
  Scrub.playhead st = Scrub.playhead st'.

(** ** Typed edits *)

Definition numberKeys : list string :=
  [ "height"; "width"; "dimension"; "gapModifier"; "depthScalar"; "baseSize" ]%string.

Definition colorKeys : list string :=
  [ "color1"; "color2"; "color3"; "color4" ]%string.

(** [updatePaneParam<T extends keyof PaneParams>(key: T, value: PaneParams[T])]:
    a numeric field is sent a number and a colour field a string. *)
Definition wellTyped (e : string * value) : Prop :=
  (In e.1 numberKeys /\ exists n, e.2 = VNum n) \/
  (In e.1 colorKeys /\ exists c, e.2 = VStr c).

(** The pane edits among the host events, in order. *)
Definition paneEdits (evs : list (R * Scrub.Event)) : list (string * value) :=
  flat_map (fun te : R * Scrub.Event =>
              match te.2 with Scrub.PaneEdit key v => [(key, v)] | _ => [] end) evs.

Definition loopEdits (evs : list (R * Loop.Event)) : list (string * value) :=
  flat_map (fun te : R * Loop.Event =>
              match te.2 with Loop.PaneEdit key v => [(key, v)] | _ => [] end) evs.

(** ** The size-only sketch *)

Module Mini.

Definition paneParams : gmap string value :=
  <["height" := VNum 640]> (<["width" := VNum 640]> ∅).

(** The subscriber of [values$]: [canvas.height = values.height;
    canvas.width = values.width], for a snapshot holding both numbers. *)
Definition resize (values : gmap string value) : option (list CanvasOp) :=
  h ← getNum values "height";
  w ← getNum values "width";
  Some [ SetHeight h; SetWidth w ].

Definition values_stream : list (string * value) -> list (gmap string value) :=
  snapshots paneParams.

Definition sized (e : string * value) : Prop :=
  (e.1 = "height"%string \/ e.1 = "width"%string) /\ exists n, e.2 = VNum n.

End Mini.

(** ** Views of the canvas operations *)

(** An operation with the vertical position of a circle forgotten. *)
Definition dropY (op : CanvasOp) : CanvasOp :=
  match op with
  | Arc x _ radius startAngle endAngle anticlockwise =>
      Arc x 0 radius startAngle endAngle anticlockwise
  | _ => op
  end.

(** The centre of a circle lies on the canvas of the given size. *)
Definition onCanvas (W H : R) (op : CanvasOp) : Prop :=
  match op with
  | Arc x y _ _ _ _ => 0 <= x < W /\ 0 <= y <= H
  | _ => True
  end.

(** The default snapshot as the renderer reads it. *)
Definition defaultParams : PaneParams :=
  mkPaneParams 640 640 32 0.1 1 5 "#222831" "#393e46" "#00ADB5" "#EEEEEE".

(** Closes the routine range goals of the invariant proofs. *)
Ltac unit_goal :=
  try tauto; try lra;
  try solve [repeat match goal with |- Forall _ _ => constructor end;
             unfold unitFrame, unitValue; cbn; lra].

(** Reduces the projections of pairs and of states, and nothing else. *)
Ltac record_fields :=
  cbn [fst snd Scrub.values Scrub.timelineSubject Scrub.timeline
       Scrub.sliderValue Scrub.started Scrub.playhead] in *.

(** ** Theorems *)

(** *** Projector *)

(** C4: projectVector maps (x, y, z) to screen x = (W/2)(1+x), screen
    y = (1-y)(H/2) and width = height = z * depthScalar * baseSize; hence
    the origin goes to the centre (W/2, H/2), x = 1 and x = -1 go to screen
    x = W and 0, and y = 1 and y = -1 go to screen y = 0 and H. *)
Theorem projectVector_spec (x y z : R) (params : PaneParams) :
  let W := width params in
  let H := height params in
  projectVector (mkVector x y z) params =
    mkProjected ((W / 2) * (1 + x)) ((1 - y) * (H / 2))
                (z * depthScalar params * baseSize params)
                (z * depthScalar params * baseSize params) /\
  px (projectVector (mkVector 0 0 z) params) = W / 2 /\
  py (projectVector (mkVector 0 0 z) params) = H / 2 /\
  px (projectVector (mkVector 1 y z) params) = W /\
  px (projectVector (mkVector (-1) y z) params) = 0 /\
  py (projectVector (mkVector x 1 z) params) = 0 /\
  py (projectVector (mkVector x (-1) z) params) = H.
Proof.
  cbv zeta. unfold projectVector, projectX, projectY. cbn [px py vx vy vz].
  repeat split; try reflexivity; field.
Qed.

(** *** Colour buckets *)

Lemma bucketColor_low (params : PaneParams) (z : R) :
  z < 0.33 -> bucketColor params z = color1 params.
Proof.
  intros Hz. unfold bucketColor.
  destruct (Rlt_dec z 0.33) as [_ | Hn]; [reflexivity | contradiction].
Qed.

Lemma bucketColor_mid (params : PaneParams) (z : R) :
  0.33 <= z < 0.66 -> bucketColor params z = color2 params.
Proof.
  intros [Hlo Hhi]. unfold bucketColor.
  destruct (Rlt_dec z 0.33) as [Hlt | _]; [lra |].
  destruct (Rlt_dec z 0.66) as [_ | Hn]; [reflexivity | contradiction].
Qed.

Lemma bucketColor_high (params : PaneParams) (z : R) :
  0.66 <= z -> bucketColor params z = color3 params.
Proof.
  intros Hz. unfold bucketColor.
  destruct (Rlt_dec z 0.33) as [Hlt | _]; [lra |].
  destruct (Rlt_dec z 0.66) as [Hlt | _]; [lra | reflexivity].
Qed.

Lemma bucketColor_cases (params : PaneParams) (z : R) :
  bucketColor params z = color1 params \/
  bucketColor params z = color2 params \/
  bucketColor params z = color3 params.
Proof.
  unfold bucketColor.
  destruct (Rlt_dec z 0.33); [now left |].
  destruct (Rlt_dec z 0.66); [right; now left | right; now right].
Qed.

(** C5: the circle drawn by drawVector is filled with color1 when z < 0.33,
    with color2 when 0.33 <= z < 0.66 and with color3 when z >= 0.66; the
    choice looks at z only, and color4 plays no part in what is drawn. *)
Theorem drawVector_color (params : PaneParams) (v : Vector) :
  let P := projectVector v params in
  (vz v < 0.33 ->
     drawVector params v = drawCircle (px P) (py P) (pw P / 2) (color1 params)) /\
  (0.33 <= vz v < 0.66 ->
     drawVector params v = drawCircle (px P) (py P) (pw P / 2) (color2 params)) /\
  (0.66 <= vz v ->
     drawVector params v = drawCircle (px P) (py P) (pw P / 2) (color3 params)) /\
  (forall v', vz v' = vz v ->
     nth 2 (drawVector params v') Fill = nth 2 (drawVector params v) Fill) /\
  (forall c, drawVector (withColor4 c params) v = drawVector params v).
Proof.
  cbv zeta. unfold drawVector. repeat split.
  - intros Hz. now rewrite bucketColor_low.
  - intros Hz. now rewrite bucketColor_mid.
  - intros Hz. now rewrite bucketColor_high.
  - intros v' Hv. cbn. now rewrite Hv.
Qed.

Lemma drawVector_color_witness :
  drawVector exampleParams (mkVector 0 0 0.5) =
  drawCircle 320 320 1.25 "#111".
Proof.
  pose proof (drawVector_color exampleParams (mkVector 0 0 0.5)) as H.
  cbv zeta in H. destruct H as (_ & Hmid & _).
  rewrite Hmid by (cbn [vz]; lra).
  unfold projectVector, projectX, projectY, exampleParams.
  cbn [px py pw vx vy vz width height depthScalar baseSize color2].
  f_equal; lra.
Defined.

(** *** gapModifier is inert *)

(** C8: two snapshots that differ only in gapModifier give the same
    projection of every point and the same sequence of canvas operations
    for every playhead. *)
Theorem gapModifier_inert (p q : PaneParams) (v : Vector) (playhead : R) :
  sameButGap p q ->
  projectVector v p = projectVector v q /\ render p playhead = render q playhead.
Proof.
  destruct p, q. unfold sameButGap. cbn.
  intros (-> & -> & -> & -> & -> & -> & -> & -> & ->).
  split; reflexivity.
Qed.

Lemma gapModifier_inert_witness :
  projectVector (mkVector 0 0 1) exampleParams =
    projectVector (mkVector 0 0 1)
      (mkPaneParams 640 640 1 0.9 1 5 "#000" "#111" "#222" "#EEEEEE") /\
  render exampleParams 0 =
    render (mkPaneParams 640 640 1 0.9 1 5 "#000" "#111" "#222" "#EEEEEE") 0.
Proof.
  apply (gapModifier_inert exampleParams
           (mkPaneParams 640 640 1 0.9 1 5 "#000" "#111" "#222" "#EEEEEE")).
  unfold sameButGap, exampleParams. cbn. repeat split.
Defined.

(** *** Counting loops *)

Lemma Int_part_IZR (z : Z) : Int_part (IZR z) = z.
Proof. symmetry. apply Int_part_spec. lra. Qed.

Lemma iterations_IZR (lo hi : Z) :
  iterations (IZR lo) (IZR hi) = Z.to_nat (hi - lo).
Proof.
  unfold iterations.
  replace (- (IZR hi - IZR lo)) with (IZR (- (hi - lo))).
  - rewrite Int_part_IZR. f_equal. lia.
  - rewrite opp_IZR, minus_IZR. reflexivity.
Qed.

Lemma Zrange_S (lo : Z) (n : nat) : Zrange lo (S n) = lo :: Zrange (lo + 1) n.
Proof.
  unfold Zrange. cbn [seq map]. f_equal.
  - lia.
  - rewrite <- seq_shift, map_map. apply map_ext. intros k. lia.
Qed.

Lemma Zrange_length (lo : Z) (n : nat) : length (Zrange lo n) = n.
Proof. unfold Zrange. now rewrite length_map, length_seq. Qed.

Lemma Zrange_spec (lo : Z) (n : nat) (i : Z) :
  In i (Zrange lo n) <-> (lo <= i < lo + Z.of_nat n)%Z.
Proof.
  unfold Zrange. rewrite in_map_iff. split.
  - intros (k & <- & Hk). apply in_seq in Hk. lia.
  - intros Hi. exists (Z.to_nat (i - lo)). split; [lia |].
    apply in_seq. lia.
Qed.

Lemma Zrange_sorted (lo : Z) (n : nat) : StronglySorted Z.lt (Zrange lo n).
Proof.
  revert lo. induction n as [| n IH]; intros lo.
  - constructor.
  - rewrite Zrange_S. constructor; [apply IH |].
    apply List.Forall_forall. intros i Hi. apply Zrange_spec in Hi. lia.
Qed.

Lemma loop_from_ext {A : Type} (body1 body2 : R -> list A) (n : nat) (i : R) :
  (forall k, body1 k = body2 k) -> loop_from n i body1 = loop_from n i body2.
Proof.
  intros Hext. revert i.
  induction n as [| n IH]; intros i; cbn; [reflexivity |].
  now rewrite Hext, IH.
Qed.

Lemma loop_from_flat_map {A B : Type} (f : A -> list B) (body : R -> list A)
      (n : nat) (i : R) :
  loop_from n i (fun k => flat_map f (body k)) = flat_map f (loop_from n i body).
Proof.
  revert i. induction n as [| n IH]; intros i; cbn; [reflexivity |].
  now rewrite flat_map_app, IH.
Qed.

Lemma loop_from_Zrange {A : Type} (body : R -> list A) (n : nat) (lo : Z) :
  loop_from n (IZR lo) body = flat_map (fun i => body (IZR i)) (Zrange lo n).
Proof.
  revert lo. induction n as [| n IH]; intros lo; [reflexivity |].
  rewrite Zrange_S. cbn [loop_from flat_map]. f_equal.
  rewrite <- IH. f_equal. now rewrite plus_IZR.
Qed.

Lemma loop_from_length {A : Type} (body : R -> list A) (m n : nat) (i : R) :
  (forall k, length (body k) = m) -> length (loop_from n i body) = (n * m)%nat.
Proof.
  intros Hm. revert i. induction n as [| n IH]; intros i; cbn; [reflexivity |].
  now rewrite length_app, Hm, IH.
Qed.

Lemma for_range_Z {A : Type} (body : R -> list A) (D : Z) :
  for_range (- IZR D) (IZR D) body =
  flat_map (fun i => body (IZR i)) (Zrange (- D) (Z.to_nat (2 * D))).
Proof.
  unfold for_range. rewrite <- opp_IZR, iterations_IZR, loop_from_Zrange.
  do 2 f_equal. lia.
Qed.

Lemma flat_map_singleton {A B : Type} (f : A -> B) (l : list A) :
  flat_map (fun x => [f x]) l = map f l.
Proof. induction l as [| x l IH]; cbn; [reflexivity | now rewrite IH]. Qed.

Lemma fieldVector_spec_point (D : Z) (p : R) (i j : Z) :
  fieldVector (IZR D) p (IZR i) (IZR j) = spec_point D p i j.
Proof.
  unfold fieldVector, spec_point. cbv zeta.
  replace (2 * (sqrt ((IZR i / IZR D) ^ 2 + (IZR j / IZR D) ^ 2) / sqrt 2 + p) * PI)
    with (2 * PI * (sqrt ((IZR i / IZR D) ^ 2 + (IZR j / IZR D) ^ 2) / sqrt 2 + p))
    by ring.
  reflexivity.
Qed.

Lemma field_spec_field (D : Z) (p : R) : field (IZR D) p = spec_field D p.
Proof.
  unfold field, spec_field. rewrite for_range_Z.
  apply flat_map_ext. intros i.
  rewrite for_range_Z, <- flat_map_singleton.
  apply flat_map_ext. intros j.
  now rewrite fieldVector_spec_point.
Qed.

Lemma field_length (D p : R) :
  length (field D p) = (iterations (- D) D * iterations (- D) D)%nat.
Proof.
  unfold field, for_range. apply loop_from_length. intros i.
  rewrite (loop_from_length _ 1%nat); [lia | reflexivity].
Qed.

(** *** Field generator *)

(** C3: for D >= 1 one frame walks i (outer) and j (inner) upward through
    the integers of [-D, D), yields (2D)^2 points, and the point of cell
    (i, j) is { x: i/D, y: (j/D)((t + r)/2), z: r } with
    r = sqrt((i/D)^2 + (j/D)^2) / sqrt 2 and t = sin(2 pi (r + p)); for
    D = 1 the cells are those with i, j in {-1, 0}. *)
Theorem field_points (D : Z) (p : R) :
  (1 <= D)%Z ->
  field (IZR D) p = spec_field D p /\
  StronglySorted Z.lt (Zrange (- D) (Z.to_nat (2 * D))) /\
  (forall i, In i (Zrange (- D) (Z.to_nat (2 * D))) <-> (- D <= i < D)%Z) /\
  Z.of_nat (length (field (IZR D) p)) = ((2 * D) ^ 2)%Z /\
  field (IZR 1) p =
    [ spec_point 1 p (-1) (-1); spec_point 1 p (-1) 0;
      spec_point 1 p 0 (-1); spec_point 1 p 0 0 ].
Proof.
  intros HD. split; [| split; [| split; [| split]]].
  - apply field_spec_field.
  - apply Zrange_sorted.
  - intros i. rewrite Zrange_spec. lia.
  - rewrite field_length, <- opp_IZR, iterations_IZR. lia.
  - rewrite field_spec_field. reflexivity.
Qed.

Lemma field_points_witness :
  Z.of_nat (length (field (IZR 2) 0)) = 16%Z.
Proof.
  assert (H : (1 <= 2)%Z) by lia.
  exact (proj1 (proj2 (proj2 (proj2 (field_points 2 0 H))))).
Defined.

(** *** Renderer *)

Lemma render_flat_map (values : PaneParams) (playhead : R) :
  render values playhead =
  [ SetHeight (height values); SetWidth (width values);
    SetFillStyle (color1 values);
    FillRect 0 0 (width values) (height values) ] ++
  flat_map (drawVector values) (field (dimension values) playhead).
Proof.
  unfold render, field, for_range. f_equal.
  rewrite <- loop_from_flat_map. apply loop_from_ext. intros i.
  rewrite <- loop_from_flat_map. apply loop_from_ext. intros j.
  cbn [flat_map]. now rewrite app_nil_r.
Qed.

Lemma circles_arcs (values : PaneParams) (l : list Vector) :
  length (List.filter isArc (flat_map (drawVector values) l)) = length l.
Proof.
  induction l as [| v l IH]; [reflexivity |].
  cbn [flat_map]. rewrite List.filter_app, length_app, IH. reflexivity.
Qed.

Lemma circles_no_fillRect (values : PaneParams) (l : list Vector) :
  List.filter isFillRect (flat_map (drawVector values) l) = [].
Proof.
  induction l as [| v l IH]; [reflexivity |].
  cbn [flat_map]. rewrite List.filter_app, IH. reflexivity.
Qed.

(** C6: one renderer invocation sets the canvas size to (width, height),
    then fills the whole surface once with color1, then draws one filled
    circle per field point, in field order, at the projected position, in
    the bucketed colour and with radius diameter / 2; with width = height
    = 640, dimension = 1 and playhead = 0 that is one 640 x 640 fill
    followed by 4 circles. *)
Theorem render_sequence (values : PaneParams) (playhead : R) :
  render values playhead =
    [ SetHeight (height values); SetWidth (width values);
      SetFillStyle (color1 values);
      FillRect 0 0 (width values) (height values) ] ++
    flat_map (drawVector values) (field (dimension values) playhead) /\
  (forall v,
     drawVector values v =
       [ BeginPath;
         Arc (px (projectVector v values)) (py (projectVector v values))
             (pw (projectVector v values) / 2) 0 (2 * PI) false;
         SetFillStyle (bucketColor values (vz v));
         Fill ]) /\
  List.filter isFillRect (render values playhead) =
    [ FillRect 0 0 (width values) (height values) ] /\
  length (List.filter isArc (render values playhead)) =
    length (field (dimension values) playhead) /\
  (forall g c4,
     let example := mkPaneParams 640 640 1 g 1 5 "#000" "#111" "#222" c4 in
     List.filter isFillRect (render example 0) = [ FillRect 0 0 640 640 ] /\
     length (List.filter isArc (render example 0)) = 4%nat /\
     exists circles,
       render example 0 =
         [ SetHeight 640; SetWidth 640; SetFillStyle "#000";
           FillRect 0 0 640 640 ] ++ circles /\
       length (List.filter isArc circles) = 4%nat /\
       List.filter isFillRect circles = []).
Proof.
  assert (Hcount : forall g c4,
            length (field (dimension
              (mkPaneParams 640 640 1 g 1 5 "#000" "#111" "#222" c4)) 0) = 4%nat).
  { intros g c4. cbn [dimension]. rewrite field_length, <- opp_IZR, iterations_IZR.
    reflexivity. }
  split; [apply render_flat_map |].
  split; [reflexivity |].
  split.
  { rewrite render_flat_map, List.filter_app, circles_no_fillRect. reflexivity. }
  split.
  { rewrite render_flat_map, List.filter_app, length_app, circles_arcs. reflexivity. }
  intros g c4 example. split; [| split].
  - rewrite render_flat_map, List.filter_app, circles_no_fillRect. reflexivity.
  - rewrite render_flat_map, List.filter_app, length_app, circles_arcs.
    cbn [List.filter isArc length Nat.add]. apply Hcount.
  - exists (flat_map (drawVector example) (field (dimension example) 0)).
    split; [apply render_flat_map |]. split.
    + rewrite circles_arcs. apply Hcount.
    + apply circles_no_fillRect.
Qed.

(** *** Reading a field just written *)

Lemma getNum_insert_eq (o : gmap string value) (key : string) (n : R) :
  getNum (<[key := VNum n]> o) key = Some n.
Proof. unfold getNum. now rewrite lookup_insert_eq. Qed.

(** *** Range of the depth component *)

Section Cell.

Variables (D i j : Z).
Hypothesis HD : (1 <= D)%Z.
Hypothesis Hi : (- D <= i < D)%Z.
Hypothesis Hj : (- D <= j < D)%Z.

Lemma cell_coord (k : Z) :
  (- D <= k < D)%Z ->
  -1 <= IZR k / IZR D < 1 /\
  (IZR k / IZR D = 0 <-> k = 0%Z) /\
  (IZR k / IZR D = -1 <-> k = (- D)%Z).
Proof.
  intros [Hlo Hhi].
  assert (Hd : 1 <= IZR D) by now apply IZR_le.
  assert (Hl : - IZR D <= IZR k) by (rewrite <- opp_IZR; now apply IZR_le).
  assert (Hh : IZR k < IZR D) by now apply IZR_lt.
  assert (Hinv : 0 < / IZR D) by (apply Rinv_0_lt_compat; lra).
  assert (Hmul : IZR k / IZR D * IZR D = IZR k) by (field; lra).
  unfold Rdiv in *. split; [split; nra |]. split; split.
  - intros H0. apply eq_IZR. nra.
  - intros ->. lra.
  - intros H1. apply eq_IZR. rewrite opp_IZR. nra.
  - intros ->. rewrite opp_IZR. field. lra.
Qed.

Lemma cell_depth (p : R) :
  let r := vz (fieldVector (IZR D) p (IZR i) (IZR j)) in
  0 <= r <= 1 /\
  (r = 0 <-> i = 0%Z /\ j = 0%Z) /\
  (r = 1 <-> i = (- D)%Z /\ j = (- D)%Z).
Proof.
  cbv zeta. unfold fieldVector. cbn [vz].
  destruct (cell_coord i Hi) as (Hx & Hx0 & Hx1).
  destruct (cell_coord j Hj) as (Hy & Hy0 & Hy1).
  set (x := IZR i / IZR D) in *. set (y := IZR j / IZR D) in *.
  assert (Hs2 : 0 < sqrt 2) by (apply sqrt_lt_R0; lra).
  assert (Hsum : 0 <= x ^ 2 + y ^ 2 <= 2) by nra.
  assert (Hs : 0 <= sqrt (x ^ 2 + y ^ 2) <= sqrt 2).
  { split; [apply sqrt_pos | apply sqrt_le_1; lra]. }
  assert (Hdiv : forall a, a / sqrt 2 * sqrt 2 = a) by (intros a; field; lra).
  split; [| split]; [split | split | split].
  - apply Rmult_le_reg_r with (sqrt 2); [exact Hs2 |]. rewrite Hdiv. lra.
  - apply Rmult_le_reg_r with (sqrt 2); [exact Hs2 |]. rewrite Hdiv. lra.
  - intros Hr.
    assert (H0 : sqrt (x ^ 2 + y ^ 2) = 0) by (rewrite <- (Hdiv (sqrt _)), Hr; ring).
    apply sqrt_eq_0 in H0; [| lra].
    split; [apply Hx0 | apply Hy0]; nra.
  - intros [Hi0 Hj0]. apply Hx0 in Hi0. apply Hy0 in Hj0. rewrite Hi0, Hj0.
    replace (0 ^ 2 + 0 ^ 2) with 0 by ring. rewrite sqrt_0. field. lra.
  - intros Hr.
    assert (H2 : sqrt (x ^ 2 + y ^ 2) = sqrt 2) by (rewrite <- (Hdiv (sqrt _)), Hr; ring).
    apply sqrt_inj in H2; [| lra | lra].
    split; [apply Hx1 | apply Hy1]; nra.
  - intros [Hi1 Hj1]. apply Hx1 in Hi1. apply Hy1 in Hj1. rewrite Hi1, Hj1.
    replace ((-1) ^ 2 + (-1) ^ 2) with 2 by ring. field. lra.
Qed.

End Cell.

Lemma field_cells (D : Z) (p : R) (v : Vector) :
  In v (field (IZR D) p) ->
  exists i j, (- D <= i < D)%Z /\ (- D <= j < D)%Z /\
              v = fieldVector (IZR D) p (IZR i) (IZR j).
Proof.
  rewrite field_spec_field. unfold spec_field.
  rewrite in_flat_map. intros (i & Hi & Hv).
  rewrite in_map_iff in Hv. destruct Hv as (j & <- & Hj).
  apply Zrange_spec in Hi. apply Zrange_spec in Hj.
  exists i, j. rewrite fieldVector_spec_point.
  repeat split; lia.
Qed.

(** C10: for D >= 1 the depth r of every emitted point lies in [0, 1],
    is 0 exactly in the cell i = j = 0 and is 1 exactly in the cell
    i = j = -D; so one of the three bucket colours is chosen for every
    point, and for positive depthScalar and baseSize the diameter
    z * depthScalar * baseSize lies between 0 and depthScalar * baseSize. *)
Theorem field_depth_range (D : Z) (p : R) :
  (1 <= D)%Z ->
  (forall i j, (- D <= i < D)%Z -> (- D <= j < D)%Z ->
     let r := vz (fieldVector (IZR D) p (IZR i) (IZR j)) in
     0 <= r <= 1 /\
     (r = 0 <-> i = 0%Z /\ j = 0%Z) /\
     (r = 1 <-> i = (- D)%Z /\ j = (- D)%Z)) /\
  (forall v params, In v (field (IZR D) p) ->
     0 <= vz v <= 1 /\
     (bucketColor params (vz v) = color1 params \/
      bucketColor params (vz v) = color2 params \/
      bucketColor params (vz v) = color3 params) /\
     (0 < depthScalar params -> 0 < baseSize params ->
      0 <= pw (projectVector v params) <= depthScalar params * baseSize params /\
      ph (projectVector v params) = pw (projectVector v params))).
Proof.
  intros HD. split.
  - intros i j Hi Hj. now apply cell_depth.
  - intros v params Hv.
    destruct (field_cells D p v Hv) as (i & j & Hi & Hj & ->).
    destruct (cell_depth D i j HD Hi Hj p) as (Hr & _).
    cbv zeta in Hr. split; [exact Hr |]. split; [apply bucketColor_cases |].
    intros Hds Hbs. unfold projectVector. cbn [pw ph]. split; [| reflexivity].
    set (r := vz (fieldVector (IZR D) p (IZR i) (IZR j))) in *.
    assert (Hprod : 0 < depthScalar params * baseSize params) by nra.
    rewrite Rmult_assoc. split; nra.
Qed.

Lemma field_depth_range_witness :
  vz (fieldVector (IZR 2) 0 (IZR (-2)) (IZR (-2))) = 1.
Proof.
  assert (HD : (1 <= 2)%Z) by lia.
  assert (Hc : (- 2 <= -2 < 2)%Z) by lia.
  apply (proj2 (proj2 (proj1 (field_depth_range 2 0 HD) (-2)%Z (-2)%Z Hc Hc))).
  split; reflexivity.
Defined.

(** *** Folding edits into the parameter snapshot *)

Lemma scan_length {A B : Type} (f : B -> A -> B) (seed : B) (xs : list A) :
  length (scan f seed xs) = length xs.
Proof.
  revert seed. induction xs as [| x xs IH]; intros seed; cbn; [reflexivity |].
  now rewrite IH.
Qed.

Lemma scan_lookup {A B : Type} (f : B -> A -> B) (seed : B) (xs : list A)
      (n : nat) (s : B) :
  scan f seed xs !! n = Some s ->
  s = fold_left f (take (S n) xs) seed.
Proof.
  revert seed n. induction xs as [| x xs IH]; intros seed n; [discriminate |].
  destruct n as [| n]; cbn.
  - intros [= <-]. now rewrite take_0.
  - intros Hn. now apply IH.
Qed.

Lemma scan_lookup_S {A B : Type} (f : B -> A -> B) (seed : B) (xs : list A)
      (n : nat) (s : B) (x : A) :
  scan f seed xs !! n = Some s -> xs !! S n = Some x ->
  scan f seed xs !! S n = Some (f s x).
Proof.
  revert seed n. induction xs as [| y xs IH]; intros seed n; [discriminate |].
  destruct n as [| n]; cbn.
  - intros [= <-]. destruct xs as [| z xs]; [discriminate |].
    cbn. now intros [= ->].
  - intros Hn Hx. now apply IH.
Qed.

Lemma lookup_map_Some {A B : Type} (f : A -> B) (l : list A) (n : nat) (x : A) :
  l !! n = Some x -> map f l !! n = Some (f x).
Proof.
  revert n. induction l as [| y l IH]; intros n; [discriminate |].
  destruct n as [| n]; cbn.
  - now intros [= ->].
  - apply IH.
Qed.

Lemma spread_empty (acc : gmap string value) : spread acc ∅ = acc.
Proof. unfold spread. apply (left_id_L ∅ (∪)). Qed.

Lemma spread_update_lookup (acc : gmap string value) (k key : string) (v : value) :
  spread acc (updateParam k v) !! key =
  if decide (k = key) then Some v else acc !! key.
Proof.
  unfold spread, updateParam. rewrite lookup_union.
  destruct (decide (k = key)) as [-> | Hne].
  - rewrite lookup_singleton_eq. now destruct (acc !! key).
  - rewrite lookup_singleton_ne by exact Hne. now destruct (acc !! key).
Qed.

Lemma fold_edits_lookup (edits : list (string * value)) (acc : gmap string value)
      (key : string) :
  fold_left spread (map (fun e => updateParam e.1 e.2) edits) acc !! key =
  match lastWrite key edits with
  | Some v => Some v
  | None => acc !! key
  end.
Proof.
  revert acc. induction edits as [| [k v] rest IH]; intros acc; [reflexivity |].
  cbn [map fold_left lastWrite fst snd]. rewrite IH.
  destruct (lastWrite key rest); [reflexivity |].
  rewrite spread_update_lookup. now destruct (decide (k = key)).
Qed.

Lemma snapshots_lookup (defaults : gmap string value) (edits : list (string * value))
      (n : nat) (s : gmap string value) (key : string) :
  snapshots defaults edits !! n = Some s ->
  s !! key = match lastWrite key (take n edits) with
             | Some v => Some v
             | None => defaults !! key
             end.
Proof.
  unfold snapshots. intros Hs. apply scan_lookup in Hs. subst s.
  cbn [take firstn fold_left]. rewrite spread_empty, firstn_map.
  apply fold_edits_lookup.
Qed.

Lemma paneParams_populated (key : string) :
  In key paneKeys -> is_Some (paneParams !! key).
Proof.
  unfold paneKeys, paneParams. cbn [In].
  intros [<- | [<- | [<- | [<- | [<- | [<- | [<- | [<- | [<- | [<- | []]]]]]]]]]];
    repeat (rewrite lookup_insert_ne by done); rewrite lookup_insert_eq; eauto.
Qed.

Lemma toParams_paneParams : toParams paneParams = Some defaultParams.
Proof. reflexivity. Qed.

(** C7: the parameter stream first emits the default snapshot and then one
    snapshot per edit, each the previous one with the edited field
    replaced: in every snapshot a field holds the value most recently
    written to it, or its default when it was never written; an edit
    leaves every other field as it was; and each of the ten fields is
    present in every snapshot. *)
Theorem values_stream_fold (edits : list (string * value)) :
  length (values_stream edits) = S (length edits) /\
  values_stream edits !! 0%nat = Some paneParams /\
  (forall n s, values_stream edits !! n = Some s ->
     (forall key, s !! key = match lastWrite key (take n edits) with
                            | Some v => Some v
                            | None => paneParams !! key
                            end) /\
     (forall key, In key paneKeys -> is_Some (s !! key))) /\
  (forall n s k v,
     values_stream edits !! n = Some s -> edits !! n = Some (k, v) ->
     values_stream edits !! S n = Some (spread s (updateParam k v)) /\
     spread s (updateParam k v) !! k = Some v /\
     (forall key, key <> k -> spread s (updateParam k v) !! key = s !! key)).
Proof.
  split; [| split; [| split]].
  - unfold values_stream, snapshots. rewrite scan_length. cbn. now rewrite length_map.
  - unfold values_stream, snapshots. cbn. now rewrite spread_empty.
  - intros n s Hs. split.
    + intros key. now apply snapshots_lookup.
    + intros key Hkey. rewrite (snapshots_lookup _ _ _ _ key Hs).
      destruct (lastWrite key (take n edits)); [eauto | now apply paneParams_populated].
  - intros n s k v Hs He. split; [| split].
    + unfold values_stream, snapshots in *.
      apply (scan_lookup_S _ _ _ _ _ (updateParam k v) Hs).
      cbn.
      exact (lookup_map_Some (fun e : string * value => updateParam e.1 e.2)
                             edits n (k, v) He).
    + rewrite spread_update_lookup. now destruct (decide (k = k)).
    + intros key Hne. rewrite spread_update_lookup.
      destruct (decide (k = key)); [congruence | reflexivity].
Qed.

Lemma values_stream_fold_witness :
  values_stream [("width"%string, VNum 800)] !! 1%nat =
    Some (spread paneParams (updateParam "width" (VNum 800))) /\
  spread paneParams (updateParam "width" (VNum 800)) !! "width" = Some (VNum 800) /\
  (forall key, key <> "width"%string ->
     spread paneParams (updateParam "width" (VNum 800)) !! key = paneParams !! key).
Proof.
  pose proof (values_stream_fold [("width"%string, VNum 800)]) as (_ & H0 & _ & Hstep).
  apply (Hstep 0%nat paneParams "width"%string (VNum 800) H0).
  reflexivity.
Defined.

(** *** Remainders and clamping *)

Lemma Rdiv_nonneg (a b : R) : 0 <= a -> 0 < b -> 0 <= a / b.
Proof.
  intros Ha Hb. unfold Rdiv. apply Rmult_le_pos; [exact Ha |].
  left. now apply Rinv_0_lt_compat.
Qed.

Lemma Rfmod_range (a b : R) : 0 <= a -> 0 < b -> 0 <= Rfmod a b < b.
Proof.
  intros Ha Hb. unfold Rfmod, Rtrunc.
  assert (Hq : 0 <= a / b) by (apply Rdiv_nonneg; assumption).
  destruct (Rle_dec 0 (a / b)) as [_ | Hn]; [| contradiction].
  destruct (base_Int_part (a / b)) as [Hlo Hhi].
  assert (Hab : a / b * b = a) by (field; lra).
  set (k := IZR (Int_part (a / b))) in *.
  split; nra.
Qed.

Lemma Rfmod_small (a b : R) : 0 <= a < b -> Rfmod a b = a.
Proof.
  intros [Ha Hab]. unfold Rfmod, Rtrunc.
  assert (Hb : 0 < b) by lra.
  assert (Hq : 0 <= a / b < 1).
  { split; [apply Rdiv_nonneg; lra |].
    apply Rmult_lt_reg_r with b; [exact Hb |].
    replace (a / b * b) with a by (field; lra). lra. }
  destruct (Rle_dec 0 (a / b)) as [_ | Hn]; [| lra].
  rewrite <- (Int_part_spec (a / b) 0) by lra. ring.
Qed.

Lemma clamp_range (v : R) : 0 <= clamp v 0 1 <= 1.
Proof.
  unfold clamp, Rmin, Rmax.
  destruct (Rle_dec v 0); destruct (Rle_dec _ 1); lra.
Qed.

Lemma atan2_lower (y x : R) : - (3 / 2) * PI < atan2 y x.
Proof.
  pose proof PI_RGT_0 as Hpi.
  pose proof (atan_bound (y / x)) as [Hlo Hhi].
  unfold atan2.
  repeat match goal with |- context [if ?c then _ else _] => destruct c end; lra.
Qed.

Lemma sliderFraction_range (clientX l w : R) :
  0 <= sliderFraction clientX l w <= 1.
Proof. apply clamp_range. Qed.

Lemma circleFraction_range (clientX clientY l w t h : R) :
  0 <= circleFraction clientX clientY l w t h < 1.
Proof.
  unfold circleFraction. cbv zeta. apply Rfmod_range; [| lra].
  pose proof PI_RGT_0 as Hpi.
  pose proof (atan2_lower (t + h / 2 - clientY) (l + w / 2 - clientX)) as Hlow.
  set (a := atan2 _ _) in *.
  assert (Hdiv : a / (2 * PI) * (2 * PI) = a) by (field; lra).
  nra.
Qed.

Lemma animated_range (slider duration elapsed : R) :
  0 <= slider -> 0 < duration -> 0 <= elapsed ->
  0 <= Scrub.animated slider duration elapsed < 1.
Proof.
  intros Hs Hd He. unfold Scrub.animated.
  apply Rfmod_range; [| lra].
  destruct (Rfmod_range elapsed (duration * 1000)) as [Hlo _]; [lra | lra |].
  assert (0 <= Rfmod elapsed (duration * 1000) / (duration * 1000))
    by (apply Rdiv_nonneg; lra).
  lra.
Qed.

(** *** Reading [duration] from a snapshot *)

Lemma getNum_spread_eq (acc : gmap string value) (k : string) (n : R) :
  getNum (spread acc (updateParam k (VNum n))) k = Some n.
Proof.
  unfold getNum. rewrite spread_update_lookup.
  now destruct (decide (k = k)).
Qed.

Lemma getNum_spread_ne (acc : gmap string value) (k key : string) (v : value) :
  k <> key -> getNum (spread acc (updateParam k v)) key = getNum acc key.
Proof.
  intros Hne. unfold getNum. rewrite spread_update_lookup.
  now destruct (decide (k = key)).
Qed.

Lemma getNum_timelineParams : getNum timelineParams "duration" = Some 0.
Proof. apply getNum_insert_eq. Qed.

Lemma onTimeline_static (now slider : R) (tl : gmap string value) :
  getNum tl "duration" = Some 0 -> Scrub.onTimeline now slider tl = (None, [slider]).
Proof.
  intros Hd. unfold Scrub.onTimeline. rewrite Hd.
  destruct (Req_dec_T 0 0) as [_ | Hn]; [reflexivity | now destruct Hn].
Qed.

Lemma onTimeline_animated (now slider d : R) (tl : gmap string value) :
  getNum tl "duration" = Some d -> d <> 0 ->
  Scrub.onTimeline now slider tl = (Some now, []).
Proof.
  intros Hd Hne. unfold Scrub.onTimeline. rewrite Hd.
  destruct (Req_dec_T d 0) as [He | _]; [contradiction | reflexivity].
Qed.

(** *** Resuming the animation from the scrub value *)

Lemma keepsClock_step (now : R) (ev : Scrub.Event) (st : Scrub.State) :
  Scrub.keepsClock ev ->
  let st' := (Scrub.step now ev st).1 in
  Scrub.timeline st' = Scrub.timeline st /\
  Scrub.sliderValue st' = Scrub.sliderValue st /\
  Scrub.started st' = Scrub.started st.
Proof.
  destruct ev; cbn [Scrub.keepsClock]; try contradiction; intros _.
  - cbn. repeat split.
  - cbn. destruct (Scrub.started st) eqn:Hc, (getNum (Scrub.timeline st) "duration");
      cbn; repeat split; exact Hc.
Qed.

Lemma keepsClock_run (evs : list (R * Scrub.Event)) (st : Scrub.State) :
  Forall (fun te => Scrub.keepsClock te.2) evs ->
  let st' := (Scrub.run st evs).1 in
  Scrub.timeline st' = Scrub.timeline st /\
  Scrub.sliderValue st' = Scrub.sliderValue st /\
  Scrub.started st' = Scrub.started st.
Proof.
  revert st. induction evs as [| [now ev] rest IH]; intros st Hall.
  - cbn. repeat split.
  - apply Forall_cons_iff in Hall. destruct Hall as [Hev Hrest].
    cbn [Scrub.run].
    destruct (keepsClock_step now ev st Hev) as (Ht & Hs & Hc).
    destruct (Scrub.step now ev st) as [st1 out1].
    specialize (IH st1 Hrest).
    destruct (Scrub.run st1 rest) as [st2 out2].
    cbn in *. destruct IH as (Ht2 & Hs2 & Hc2).
    repeat split; congruence.
Qed.

(** C1: in the scrub-enabled sketch, when duration is edited from 0 to a
    positive d while the scrub value is s, nothing is emitted at the switch
    and the animation frame arriving e after it emits the playhead
    (s + (e mod (d*1000)) / (d*1000)) mod 1, whatever pane edits and frames
    came in between; while s + e / (d*1000) stays below 1 this is
    s + e / (d*1000), so the stream resumes at s (for s below 1), not at 0. *)
Theorem resume_from_scrub (st : Scrub.State) (t0 d e : R)
        (evs : list (R * Scrub.Event)) :
  getNum (Scrub.timeline st) "duration" = Some 0 ->
  0 < d ->
  Forall (fun te => Scrub.keepsClock te.2) evs ->
  let s := Scrub.sliderValue st in
  let st1 := (Scrub.step t0 (Scrub.DurationEdit d) st).1 in
  let st2 := (Scrub.run st1 evs).1 in
  let p := Rfmod (s + Rfmod e (d * 1000) / (d * 1000)) 1 in
  (Scrub.step t0 (Scrub.DurationEdit d) st).2 = [] /\
  (Scrub.frameStep (t0 + e) Scrub.AnimationFrame st2).2 = [p] /\
  (Scrub.step (t0 + e) Scrub.AnimationFrame st2).2 = [(Scrub.values st2, p)] /\
  (0 <= s -> 0 <= e -> s + e / (d * 1000) < 1 -> p = s + e / (d * 1000)) /\
  (0 <= s < 1 -> e = 0 -> p = s).
Proof.
  intros Hstatic Hd Hevs s st1 st2 p.
  assert (Hsw : Scrub.step t0 (Scrub.DurationEdit d) st =
                (Scrub.mkState (Scrub.values st) (updateParam "duration" (VNum d))
                   (spread (Scrub.timeline st) (updateParam "duration" (VNum d)))
                   (Scrub.sliderValue st) (Some t0) (Scrub.playhead st), [])).
  { cbn [Scrub.step Scrub.frameStep].
    rewrite (onTimeline_animated t0 _ d) by (try apply getNum_spread_eq; lra).
    reflexivity. }
  assert (Hst1 : Scrub.timeline st1 =
                   spread (Scrub.timeline st) (updateParam "duration" (VNum d)) /\
                 Scrub.sliderValue st1 = s /\ Scrub.started st1 = Some t0).
  { unfold st1. rewrite Hsw. repeat split. }
  destruct Hst1 as (Htl1 & Hs1 & Hc1).
  destruct (keepsClock_run evs st1 Hevs) as (Htl2 & Hs2 & Hc2).
  fold st2 in Htl2, Hs2, Hc2.
  assert (Hframe : Scrub.frameStep (t0 + e) Scrub.AnimationFrame st2 =
            (Scrub.mkState (Scrub.values st2) (Scrub.timelineSubject st2)
               (Scrub.timeline st2) (Scrub.sliderValue st2) (Scrub.started st2) p,
             [p])).
  { cbn [Scrub.frameStep]. rewrite Hc2, Hc1, Htl2, Htl1, getNum_spread_eq, Hs2, Hs1.
    unfold Scrub.animated. replace (t0 + e - t0) with e by ring. reflexivity. }
  assert (Hmul : 0 < d * 1000) by lra.
  split; [now rewrite Hsw |].
  split; [now rewrite Hframe |].
  split; [cbn [Scrub.step]; now rewrite Hframe |].
  split.
  - intros Hs He Hlt. unfold p.
    assert (Hq : 0 <= e / (d * 1000)) by (apply Rdiv_nonneg; lra).
    assert (He' : e < d * 1000).
    { apply Rmult_lt_reg_r with (/ (d * 1000)); [now apply Rinv_0_lt_compat |].
      rewrite Rinv_r by lra. unfold Rdiv in *. lra. }
    rewrite (Rfmod_small e) by lra. apply Rfmod_small. lra.
  - intros Hs ->. unfold p.
    rewrite (Rfmod_small 0) by lra.
    replace (s + 0 / (d * 1000)) with s by (field; lra).
    now apply Rfmod_small.
Qed.

Lemma resume_from_scrub_witness :
  Rfmod (0.3 + Rfmod 2500 (5 * 1000) / (5 * 1000)) 1 = 0.3 + 2500 / (5 * 1000).
Proof.
  pose proof (resume_from_scrub
                (Scrub.mkState paneParams ∅ timelineParams 0.3 None 0.3)
                1000 5 2500
                [(1500, Scrub.PaneEdit "color2" (VStr "#fff")); (1516, Scrub.AnimationFrame)]
                getNum_timelineParams) as H.
  cbv zeta in H. cbn [Scrub.sliderValue] in H.
  apply H; try lra.
  repeat constructor.
Defined.

(** *** Range of the delivered playheads: the scrub-enabled sketch *)

Lemma Scrub_Inv_later (t now : R) (st : Scrub.State) :
  Scrub.Inv t st -> t <= now -> Scrub.Inv now st.
Proof.
  unfold Scrub.Inv. intros (Hp & Hs & Hsub & Hc) Hle.
  repeat split; try tauto.
  destruct (Scrub.started st); [| exact I].
  destruct Hc as [Hstart Hd]. split; [lra | exact Hd].
Qed.

Lemma subject_duration (o : gmap string value) :
  Scrub.subjectOk o ->
  exists d, getNum (spread timelineParams o) "duration" = Some d /\ 0 <= d.
Proof.
  intros [-> | (v & Hv & ->)].
  - exists 0. rewrite spread_empty. split; [apply getNum_timelineParams | lra].
  - exists v. split; [apply getNum_spread_eq | exact Hv].
Qed.

Lemma onTimeline_cases (now slider d : R) (tl : gmap string value) :
  getNum tl "duration" = Some d -> 0 <= d ->
  (d = 0 /\ Scrub.onTimeline now slider tl = (None, [slider])) \/
  (0 < d /\ Scrub.onTimeline now slider tl = (Some now, [])).
Proof.
  intros Hd Hpos. destruct (Req_dec_T d 0) as [-> | Hne].
  - left. split; [reflexivity | now apply onTimeline_static].
  - right. split; [lra | now apply (onTimeline_animated now slider d)].
Qed.

Lemma Scrub_slide_inv (t now v : R) (st : Scrub.State) :
  Scrub.Inv t st -> t <= now -> 0 <= v <= 1 ->
  Scrub.Inv now (Scrub.slide now v st).1 /\
  Forall unitValue (Scrub.slide now v st).2 /\
  Scrub.values (Scrub.slide now v st).1 = Scrub.values st.
Proof.
  intros (Hp & Hs & Hsub & Hc) Hle Hv. unfold Scrub.slide.
  destruct (subject_duration _ Hsub) as (d & Hd & Hpos).
  destruct (onTimeline_cases now v d _ Hd Hpos) as [[_ ->] | [Hd0 ->]];
    cbn; unfold Scrub.Inv; cbn.
  - repeat split; unit_goal.
  - repeat split; unit_goal.
    intros d' Hd'. rewrite Hd in Hd'. now injection Hd' as <-.
Qed.

Lemma Scrub_frameStep_inv (t now : R) (ev : Scrub.Event) (st : Scrub.State) :
  Scrub.Inv t st -> t <= now -> Scrub.inBounds ev ->
  Scrub.Inv now (Scrub.frameStep now ev st).1 /\
  Forall unitValue (Scrub.frameStep now ev st).2 /\
  Scrub.values (Scrub.frameStep now ev st).1 = Scrub.values st.
Proof.
  intros HI Hle Hev. destruct ev as [cx l w | cx cy l w tp h | v | key v |].
  - apply (Scrub_slide_inv t); [assumption .. | apply sliderFraction_range].
  - apply (Scrub_slide_inv t); [assumption .. |].
    pose proof (circleFraction_range cx cy l w tp h). lra.
  - cbn in Hev. destruct HI as (Hp & Hs & Hsub & Hc). cbn [Scrub.frameStep].
    pose proof (getNum_spread_eq (Scrub.timeline st) "duration" v) as Hd.
    destruct (onTimeline_cases now (Scrub.sliderValue st) v _ Hd Hev)
      as [[_ ->] | [Hv0 ->]]; cbn; unfold Scrub.Inv; cbn.
    + repeat split; unit_goal.
      right. now exists v.
    + repeat split; unit_goal.
      * right. now exists v.
      * intros d' Hd'. rewrite Hd in Hd'. now injection Hd' as <-.
  - cbn. split; [now apply (Scrub_Inv_later t) |]. split; [constructor | reflexivity].
  - cbn [Scrub.frameStep].
    destruct (Scrub.started st) as [start |] eqn:Hst;
      [| cbn; split; [now apply (Scrub_Inv_later t) | split; [constructor | reflexivity]]].
    destruct (getNum (Scrub.timeline st) "duration") as [d |] eqn:Hd;
      [| cbn; split; [now apply (Scrub_Inv_later t) | split; [constructor | reflexivity]]].
    destruct HI as (Hp & Hs & Hsub & Hc). rewrite Hst in Hc. destruct Hc as [Hstart Hpos].
    assert (Hr : 0 <= Scrub.animated (Scrub.sliderValue st) d (now - start) < 1).
    { apply animated_range; [lra | now apply Hpos | lra]. }
    cbn. unfold Scrub.Inv. cbn.
    repeat split; unit_goal.
Qed.

Lemma unitFrame_map (vs : gmap string value) (out : list R) :
  Forall unitValue out -> Forall unitFrame (map (fun p => (vs, p)) out).
Proof.
  induction out as [| p out IH]; intros Hout; cbn.
  - constructor.
  - apply Forall_cons_iff in Hout. destruct Hout as [Hp Hout].
    apply Forall_cons_iff. split; [exact Hp | now apply IH].
Qed.

Lemma Scrub_step_inv (t now : R) (ev : Scrub.Event) (st : Scrub.State) :
  Scrub.Inv t st -> t <= now -> Scrub.inBounds ev ->
  Scrub.Inv now (Scrub.step now ev st).1 /\ Forall unitFrame (Scrub.step now ev st).2.
Proof.
  intros HI Hle Hev.
  assert (Hframes : forall st' out,
            Scrub.frameStep now ev st = (st', out) ->
            Scrub.Inv now st' /\
            Forall unitFrame (map (fun p => (Scrub.values st', p)) out)).
  { intros st' out Heq.
    destruct (Scrub_frameStep_inv t now ev st HI Hle Hev) as (HI' & Hout & _).
    rewrite Heq in HI', Hout. cbn in HI', Hout. split; [exact HI' |].
    now apply unitFrame_map. }
  destruct ev as [cx l w | cx cy l w tp h | v | key v |]; cbn [Scrub.step];
    try (destruct (Scrub.frameStep now _ st) as [st' out] eqn:Heq;
         now apply Hframes).
  cbn. destruct (Scrub_Inv_later t now st HI Hle) as (Hp & Hs & Hsub & Hc).
  split; [unfold Scrub.Inv; cbn; tauto |].
  unit_goal.
Qed.

Lemma Scrub_run_inv (evs : list (R * Scrub.Event)) (t : R) (st : Scrub.State) :
  Scrub.Inv t st -> Scrub.chronological t evs ->
  Forall (fun te => Scrub.inBounds te.2) evs ->
  Forall unitFrame (Scrub.run st evs).2.
Proof.
  revert t st. induction evs as [| [now ev] rest IH]; intros t st HI Hchr Hall.
  - constructor.
  - cbn [Scrub.chronological] in Hchr. destruct Hchr as [Hle Hchr].
    apply Forall_cons_iff in Hall. destruct Hall as [Hev Hrest].
    destruct (Scrub_step_inv t now ev st HI Hle Hev) as [HI1 Hout1].
    cbn [Scrub.run]. destruct (Scrub.step now ev st) as [st1 out1].
    specialize (IH now st1 HI1 Hchr Hrest).
    destruct (Scrub.run st1 rest) as [st2 out2].
    cbn in *. apply Forall_app. split; assumption.
Qed.

Lemma Scrub_init_eq (t0 : R) :
  Scrub.init t0 =
  (Scrub.mkState paneParams ∅ timelineParams 0 None 0, [(paneParams, 0)]).
Proof.
  unfold Scrub.init. rewrite !spread_empty.
  rewrite (onTimeline_static t0 0 timelineParams getNum_timelineParams).
  reflexivity.
Qed.

Lemma Scrub_delivered_unit (t0 : R) (evs : list (R * Scrub.Event)) :
  Scrub.chronological t0 evs ->
  Forall (fun te => Scrub.inBounds te.2) evs ->
  Forall unitFrame (Scrub.delivered t0 evs).
Proof.
  intros Hchr Hall. unfold Scrub.delivered. rewrite Scrub_init_eq.
  apply Forall_app. split.
  - unit_goal.
  - apply (Scrub_run_inv evs t0); [| assumption ..].
    unfold Scrub.Inv. cbn. repeat split; try lra. now left.
Qed.

(** *** Range of the delivered playheads: the looping sketch *)

Lemma Loop_onValues_inv (now : R) (vs : gmap string value) :
  (forall d, getNum vs "duration" = Some d -> 0 <= d) ->
  Loop.Inv now (Loop.onValues now vs).1 /\
  Forall unitFrame (Loop.onValues now vs).2.
Proof.
  intros Hpos. unfold Loop.onValues.
  destruct (getNum vs "duration") as [d |] eqn:Hd.
  - destruct (Req_dec_T d 0) as [-> | Hne]; unfold Loop.Inv; cbn; rewrite Hd.
    + repeat split; unit_goal.
    + repeat split; unit_goal.
      intros d' [= <-]. specialize (Hpos d eq_refl). lra.
  - unfold Loop.Inv; cbn; rewrite Hd. repeat split; unit_goal; discriminate.
Qed.

Lemma Loop_step_inv (t now : R) (ev : Loop.Event) (st : Loop.State) :
  Loop.Inv t st -> t <= now -> Loop.inBounds ev ->
  Loop.Inv now (Loop.step now ev st).1 /\
  Forall unitFrame (Loop.step now ev st).2 /\
  (ev = Loop.AnimationFrame -> Forall halfOpenFrame (Loop.step now ev st).2).
Proof.
  intros [Hnn Hc] Hle Hev. destruct ev as [key v |].
  - cbn [Loop.step].
    destruct (Loop_onValues_inv now (spread (Loop.values st) (updateParam key v)))
      as [HI Hout]; [| split; [exact HI | split; [exact Hout | discriminate]]].
    intros d. destruct (decide (key = "duration"%string)) as [-> | Hne].
    + destruct (Hev eq_refl) as (d0 & -> & Hd0).
      rewrite getNum_spread_eq. now intros [= <-].
    + rewrite getNum_spread_ne by exact Hne. apply Hnn.
  - assert (HI : Loop.Inv now st).
    { split; [exact Hnn |]. destruct (Loop.started st); [| exact I].
      destruct Hc as [Hstart Hpos]. split; [lra | exact Hpos]. }
    cbn [Loop.step].
    destruct (Loop.started st) as [start |] eqn:Hst;
      [| cbn; split; [exact HI | split; [| intros _]]; constructor].
    destruct (getNum (Loop.values st) "duration") as [d |] eqn:Hd;
      [| cbn; split; [exact HI | split; [| intros _]]; constructor].
    destruct Hc as [Hstart Hpos]. specialize (Hpos d eq_refl).
    assert (Hq : 0 <= (now - start) / (d * 1000)) by (apply Rdiv_nonneg; lra).
    assert (Hx : 0 <= Rmin ((now - start) / (d * 1000)) 1)
      by (apply Rmin_glb; lra).
    destruct (Rlt_dec _ 1) as [Hlt | Hge]; cbn.
    + split; [exact HI | split; [| intros _]];
        (constructor; [unfold unitFrame, unitValue, halfOpenFrame; cbn; lra
                      | constructor]).
    + split; [| split; [| intros _]; constructor].
      unfold Loop.Inv. cbn. rewrite Hd.
      split; [exact Hnn |]. split; [lra |]. now intros d' [= <-].
Qed.

Lemma Loop_run_inv (evs : list (R * Loop.Event)) (t : R) (st : Loop.State) :
  Loop.Inv t st -> Loop.chronological t evs ->
  Forall (fun te => Loop.inBounds te.2) evs ->
  Forall unitFrame (Loop.run st evs).2.
Proof.
  revert t st. induction evs as [| [now ev] rest IH]; intros t st HI Hchr Hall.
  - constructor.
  - cbn [Loop.chronological] in Hchr. destruct Hchr as [Hle Hchr].
    apply Forall_cons_iff in Hall. destruct Hall as [Hev Hrest].
    destruct (Loop_step_inv t now ev st HI Hle Hev) as (HI1 & Hout1 & _).
    cbn [Loop.run]. destruct (Loop.step now ev st) as [st1 out1].
    specialize (IH now st1 HI1 Hchr Hrest).
    destruct (Loop.run st1 rest) as [st2 out2].
    cbn in *. apply Forall_app. split; assumption.
Qed.

Lemma Loop_init_eq (t0 : R) :
  Loop.init t0 = (Loop.mkState Loop.paneParams (Some t0), []).
Proof.
  unfold Loop.init, Loop.onValues. rewrite spread_empty.
  unfold Loop.paneParams at 1. rewrite getNum_insert_eq.
  destruct (Req_dec_T 5 0) as [H5 | _]; [lra | reflexivity].
Qed.

Lemma Loop_delivered_unit (t0 : R) (evs : list (R * Loop.Event)) :
  Loop.chronological t0 evs ->
  Forall (fun te => Loop.inBounds te.2) evs ->
  Forall unitFrame (Loop.delivered t0 evs).
Proof.
  intros Hchr Hall. unfold Loop.delivered. rewrite Loop_init_eq. cbn [app].
  apply (Loop_run_inv evs t0); [| assumption ..].
  unfold Loop.Inv. cbn. unfold Loop.paneParams. rewrite getNum_insert_eq.
  repeat split; try lra; intros d [= <-]; lra.
Qed.

Lemma sliderFraction_full : sliderFraction 100 0 100 = 1.
Proof.
  unfold sliderFraction, clamp.
  replace ((100 - 0) / 100) with 1 by field.
  rewrite Rmax_left by lra. apply Rmin_left. lra.
Qed.

(** *** Playheads delivered to the renderer *)

(** C2, as stated, fails: with duration edited to 0 the looping sketch
    delivers the playhead 1, and the scrub-enabled sketch delivers 1 when
    the linear slider is dragged to its right end; 1 is outside [0, 1). *)
Lemma playhead_half_open_counterexample :
  ~ Forall halfOpenFrame
      (Loop.delivered 0 [(0, Loop.PaneEdit "duration" (VNum 0))]) /\
  ~ Forall halfOpenFrame
      (Scrub.delivered 0 [(0, Scrub.SliderPointer 100 0 100)]).
Proof.
  split.
  - unfold Loop.delivered. rewrite Loop_init_eq. cbn [Loop.run Loop.step Loop.values].
    unfold Loop.onValues. rewrite getNum_spread_eq.
    destruct (Req_dec_T 0 0) as [_ | Hn]; [| now destruct Hn].
    cbn. intros H. apply Forall_cons_iff in H. destruct H as [[_ H1] _].
    cbn in H1. lra.
  - unfold Scrub.delivered. rewrite Scrub_init_eq.
    cbn [Scrub.run Scrub.step Scrub.frameStep]. unfold Scrub.slide.
    cbn [Scrub.timelineSubject]. rewrite spread_empty.
    rewrite (onTimeline_static 0 _ timelineParams getNum_timelineParams).
    rewrite sliderFraction_full. cbn.
    intros H. apply Forall_cons_iff in H. destruct H as [_ H].
    apply Forall_cons_iff in H. destruct H as [[_ H1] _].
    cbn in H1. lra.
Qed.

(** C2 (amended): for chronological events, durations >= 0 and a linear
    slider whose track has a non-zero width, every playhead delivered to
    the renderer lies in the closed interval [0, 1].  A playhead computed
    from an animation frame (duration > 0) lies in [0, 1).  With
    duration = 0 the scrub-enabled sketch delivers the current slider
    value, which is in [0, 1] for the linear slider (clamped, so 1 is
    possible; the track width is not 0) and in [0, 1) for the circular
    one, and the looping sketch delivers the constant 1. *)
Theorem delivered_playhead_range :
  (forall t0 evs,
     Scrub.chronological t0 evs -> Forall (fun te => Scrub.inBounds te.2) evs ->
     Forall unitFrame (Scrub.delivered t0 evs)) /\
  (forall t0 evs,
     Loop.chronological t0 evs -> Forall (fun te => Loop.inBounds te.2) evs ->
     Forall unitFrame (Loop.delivered t0 evs)) /\
  (forall slider duration elapsed,
     0 <= slider -> 0 < duration -> 0 <= elapsed ->
     0 <= Scrub.animated slider duration elapsed < 1) /\
  (forall t now st,
     Loop.Inv t st -> t <= now ->
     Forall halfOpenFrame (Loop.step now Loop.AnimationFrame st).2) /\
  (forall now slider tl,
     getNum tl "duration" = Some 0 ->
     Scrub.onTimeline now slider tl = (None, [slider])) /\
  (forall clientX l w, w <> 0 -> 0 <= sliderFraction clientX l w <= 1) /\
  (forall clientX clientY l w t h,
     0 <= circleFraction clientX clientY l w t h < 1) /\
  (forall now vs,
     getNum vs "duration" = Some 0 -> (Loop.onValues now vs).2 = [(vs, 1)]).
Proof.
  split; [exact Scrub_delivered_unit |].
  split; [exact Loop_delivered_unit |].
  split; [exact animated_range |].
  split.
  { intros t now st HI Hle.
    now apply (Loop_step_inv t now Loop.AnimationFrame st HI Hle I). }
  split; [exact onTimeline_static |].
  split; [intros clientX l w _; apply sliderFraction_range |].
  split; [exact circleFraction_range |].
  intros now vs Hd. unfold Loop.onValues. rewrite Hd.
  destruct (Req_dec_T 0 0) as [_ | Hn]; [reflexivity | now destruct Hn].
Qed.

Lemma delivered_playhead_range_witness :
  Forall unitFrame
    (Scrub.delivered 0 [ (1, Scrub.SliderPointer 100 0 100);
                         (2, Scrub.DurationEdit 5);
                         (3, Scrub.AnimationFrame) ]).
Proof.
  apply (proj1 delivered_playhead_range).
  - cbn. lra.
  - repeat (apply Forall_cons_iff; split); cbn; try lra; try exact I.
    constructor.
Defined.

(** ** Further properties of the sketches *)

(** *** The linear slider *)

(** X1: for a track of positive width, a pointer left of the track reads
    0, a pointer right of it reads 1, and a pointer over it reads its
    offset as a fraction of the width; the reading never decreases as the
    pointer moves right. *)
Theorem sliderFraction_track (clientX clientX' l w : R) :
  0 < w ->
  (clientX <= l -> sliderFraction clientX l w = 0) /\
  (l + w <= clientX -> sliderFraction clientX l w = 1) /\
  (l <= clientX <= l + w -> sliderFraction clientX l w = (clientX - l) / w) /\
  (clientX <= clientX' -> sliderFraction clientX l w <= sliderFraction clientX' l w).
Proof.
  intros Hw.
  assert (Hinv : 0 < / w) by now apply Rinv_0_lt_compat.
  assert (Hfrac : forall c, (c - l) / w * w = c - l) by (intros c; field; lra).
  assert (Hmono : forall a b, a <= b -> clamp a 0 1 <= clamp b 0 1).
  { intros a b Hab. unfold clamp. apply Rle_min_compat_r.
    now apply Rle_max_compat_r. }
  unfold sliderFraction. repeat split.
  - intros Hc. pose proof (Hfrac clientX). unfold clamp.
    rewrite Rmax_right by nra. apply Rmin_left. lra.
  - intros Hc. pose proof (Hfrac clientX). unfold clamp.
    rewrite Rmax_left by nra. apply Rmin_right. nra.
  - intros [Hlo Hhi]. pose proof (Hfrac clientX). unfold clamp.
    rewrite Rmax_left by nra. apply Rmin_left. nra.
  - intros Hc. apply Hmono. unfold Rdiv. apply Rmult_le_compat_r; lra.
Qed.

Lemma sliderFraction_track_witness : sliderFraction 30 0 100 = (30 - 0) / 100.
Proof.
  assert (Hw : 0 < 100) by lra.
  apply (proj1 (proj2 (proj2 (sliderFraction_track 30 30 0 100 Hw)))). lra.
Defined.

(** *** Remainders *)

Lemma Rfmod_unique (a b r : R) (k : Z) :
  0 < b -> 0 <= r < b -> (0 <= k)%Z -> a = b * IZR k + r -> Rfmod a b = r.
Proof.
  intros Hb Hr Hk ->. unfold Rfmod, Rtrunc.
  assert (Hk' : 0 <= IZR k) by now apply IZR_le.
  assert (Hq : (b * IZR k + r) / b = IZR k + r / b) by (field; lra).
  assert (Hrb : 0 <= r / b < 1).
  { split; [apply Rdiv_nonneg; lra |].
    apply Rmult_lt_reg_r with b; [exact Hb |].
    replace (r / b * b) with r by (field; lra). lra. }
  rewrite Hq.
  destruct (Rle_dec 0 (IZR k + r / b)) as [_ | Hn]; [| lra].
  rewrite <- (Int_part_spec (IZR k + r / b) k) by lra. ring.
Qed.

Lemma Rfmod_period (a b : R) : 0 <= a -> 0 < b -> Rfmod (a + b) b = Rfmod a b.
Proof.
  intros Ha Hb.
  pose proof (Rfmod_range a b Ha Hb) as Hr.
  assert (Hq : 0 <= a / b) by (apply Rdiv_nonneg; assumption).
  assert (Hk : (0 <= Int_part (a / b))%Z).
  { destruct (base_Int_part (a / b)) as [_ Hhi].
    apply le_IZR. apply IZR_le. apply Z.lt_succ_r. apply lt_IZR.
    rewrite succ_IZR. lra. }
  apply (Rfmod_unique _ _ _ (Int_part (a / b) + 1)); [assumption | assumption | lia |].
  rewrite plus_IZR. unfold Rfmod, Rtrunc.
  destruct (Rle_dec 0 (a / b)) as [_ | Hn]; [ring | contradiction].
Qed.

(** X2: while the animation runs the playhead is periodic in the elapsed
    time with period duration * 1000 ms, and within one period, for a
    slider value s in [0, 1), it is s + e / (duration * 1000), less 1 once
    that sum reaches 1. *)
Theorem animated_wraps (s d e : R) :
  0 < d -> 0 <= e ->
  Scrub.animated s d (e + d * 1000) = Scrub.animated s d e /\
  (0 <= s < 1 -> e < d * 1000 ->
   (s + e / (d * 1000) < 1 -> Scrub.animated s d e = s + e / (d * 1000)) /\
   (1 <= s + e / (d * 1000) -> Scrub.animated s d e = s + e / (d * 1000) - 1)).
Proof.
  intros Hd He. assert (Hb : 0 < d * 1000) by lra. split.
  - unfold Scrub.animated. now rewrite Rfmod_period.
  - intros Hs Hlt. unfold Scrub.animated. rewrite (Rfmod_small e) by lra.
    assert (Hq : 0 <= e / (d * 1000) < 1).
    { split; [apply Rdiv_nonneg; lra |].
      apply Rmult_lt_reg_r with (d * 1000); [exact Hb |].
      replace (e / (d * 1000) * (d * 1000)) with e by (field; lra). lra. }
    split; intros Hsum.
    + apply Rfmod_small. lra.
    + apply (Rfmod_unique _ _ _ 1); [lra | lra | lia | ring].
Qed.

Lemma animated_wraps_witness :
  Scrub.animated 0.5 5 (4000 + 5 * 1000) = Scrub.animated 0.5 5 4000 /\
  Scrub.animated 0.5 5 4000 = 0.5 + 4000 / (5 * 1000) - 1.
Proof.
  assert (Hd : 0 < 5) by lra. assert (He : 0 <= 4000) by lra.
  destruct (animated_wraps 0.5 5 4000 Hd He) as [Hper Hin].
  split; [exact Hper |].
  apply Hin; lra.
Defined.

(** *** The clock of the scrub-enabled sketch *)

Lemma coherent_onTimeline (now slider : R) (tl : gmap string value) (d : R) :
  getNum tl "duration" = Some d ->
  ((Scrub.onTimeline now slider tl).1 = None <-> d = 0).
Proof.
  intros Hd. destruct (Req_dec_T d 0) as [-> | Hne].
  - rewrite onTimeline_static by exact Hd. cbn. tauto.
  - rewrite (onTimeline_animated now slider d) by assumption. cbn.
    split; [discriminate | contradiction].
Qed.

Lemma coherent_frameStep (now : R) (ev : Scrub.Event) (st : Scrub.State) :
  coherent st -> coherent (Scrub.frameStep now ev st).1.
Proof.
  intros Hco. pose proof Hco as ((d & Hd) & Hiff & Hsub).
  assert (Hslide : forall v, coherent (Scrub.slide now v st).1).
  { intros v. unfold Scrub.slide.
    rewrite Hd in Hsub.
    pose proof (coherent_onTimeline now v _ d Hsub) as Hc.
    destruct (Scrub.onTimeline now v _) as [clock out].
    unfold coherent. record_fields. rewrite Hsub.
    split; [eauto |]. split; [| reflexivity].
    rewrite Hc. split; [now intros -> | now intros [= ->]]. }
  destruct ev as [cx l w | cx cy l w tp h | v | key v |]; cbn [Scrub.frameStep].
  - apply Hslide.
  - apply Hslide.
  - pose proof (getNum_spread_eq (Scrub.timeline st) "duration" v) as Hv.
    pose proof (coherent_onTimeline now (Scrub.sliderValue st) _ v Hv) as Hc.
    destruct (Scrub.onTimeline now _ _) as [clock out].
    unfold coherent. record_fields. rewrite Hv.
    split; [eauto |]. split.
    + rewrite Hc. split; [now intros -> | now intros [= ->]].
    + apply getNum_spread_eq.
  - exact Hco.
  - destruct (Scrub.started st) as [start |] eqn:Hst; [| exact Hco].
    destruct (getNum (Scrub.timeline st) "duration") as [d' |] eqn:Hd';
      [| exact Hco].
    unfold coherent in *. record_fields. rewrite ?Hd', ?Hst in *. exact Hco.
Qed.

Lemma coherent_step (now : R) (ev : Scrub.Event) (st : Scrub.State) :
  coherent st -> coherent (Scrub.step now ev st).1.
Proof.
  intros Hco. pose proof (coherent_frameStep now ev st Hco) as Hf.
  destruct ev; cbn [Scrub.step];
    try (destruct (Scrub.frameStep now _ st) as [st' out]; exact Hf).
  exact Hco.
Qed.

Lemma coherent_start :
  coherent (Scrub.mkState paneParams ∅ timelineParams 0 None 0).
Proof.
  unfold coherent. record_fields. rewrite spread_empty, getNum_timelineParams.
  split; [eauto |]. split; [tauto | reflexivity].
Qed.

(** X5: in every state the scrub-enabled sketch reaches from start-up,
    a duration is in effect, the animation clock is subscribed exactly
    when that duration is not 0, and subscribing to the timeline anew, as
    every slider move does, yields the same duration. *)
Theorem clock_follows_duration (t0 : R) (evs : list (R * Scrub.Event)) :
  coherent (Scrub.run (Scrub.init t0).1 evs).1.
Proof.
  rewrite Scrub_init_eq. cbn [fst].
  pose proof coherent_start as H0.
  revert H0. generalize (Scrub.mkState paneParams ∅ timelineParams 0 None 0).
  induction evs as [| [now ev] rest IH]; intros st Hco; [exact Hco |].
  cbn [Scrub.run]. pose proof (coherent_step now ev st Hco) as H1.
  destruct (Scrub.step now ev st) as [st1 out1].
  specialize (IH st1 H1). destruct (Scrub.run st1 rest) as [st2 out2].
  exact IH.
Qed.

(** *** Pane edits and the playhead stream *)

Lemma frameEq_refl (st : Scrub.State) : frameEq st st.
Proof. unfold frameEq. tauto. Qed.

Lemma frameEq_trans (a b c : Scrub.State) :
  frameEq a b -> frameEq b c -> frameEq a c.
Proof.
  unfold frameEq. intros (H1 & H2 & H3 & H4 & H5) (K1 & K2 & K3 & K4 & K5).
  repeat split; congruence.
Qed.

Lemma frameEq_frameStep (now : R) (ev : Scrub.Event) (st st' : Scrub.State) :
  frameEq st st' ->
  frameEq (Scrub.frameStep now ev st).1 (Scrub.frameStep now ev st').1 /\
  (Scrub.frameStep now ev st).2 = (Scrub.frameStep now ev st').2.
Proof.
  destruct st as [vs sub tl sl clk ph0], st' as [vs' sub' tl' sl' clk' ph'].
  unfold frameEq. record_fields. intros (-> & -> & -> & -> & ->).
  destruct ev as [cx l w | cx cy l w tp h | v | key v |];
    cbn [Scrub.frameStep]; unfold Scrub.slide; record_fields.
  - destruct (Scrub.onTimeline now _ _) as [clock out]. record_fields.
    repeat split; reflexivity.
  - destruct (Scrub.onTimeline now _ _) as [clock out]. record_fields.
    repeat split; reflexivity.
  - destruct (Scrub.onTimeline now _ _) as [clock out]. record_fields.
    repeat split; reflexivity.
  - repeat split; reflexivity.
  - destruct clk' as [start |]; [destruct (getNum tl' "duration") as [d |] |];
      record_fields; repeat split; reflexivity.
Qed.

Lemma step_frameStep (now : R) (ev : Scrub.Event) (st : Scrub.State) :
  frameEq (Scrub.frameStep now ev st).1 (Scrub.step now ev st).1 /\
  (isPaneEdit ev = false ->
   map snd (Scrub.step now ev st).2 = (Scrub.frameStep now ev st).2).
Proof.
  assert (Hmap : forall (vs : gmap string value) (out : list R),
            map snd (map (fun p => (vs, p)) out) = out).
  { intros vs out. rewrite map_map. cbn. apply map_id. }
  destruct ev as [cx l w | cx cy l w tp h | v | key v |]; cbn [Scrub.step isPaneEdit];
    try (destruct (Scrub.frameStep now _ st) as [st' out]; record_fields;
         split; [apply frameEq_refl | intros _; apply Hmap]).
  cbn [Scrub.frameStep]. split; [| discriminate].
  unfold frameEq. record_fields. tauto.
Qed.

Lemma frameRun_run (evs : list (R * Scrub.Event)) (st st' : Scrub.State) :
  frameEq st st' ->
  frameEq (frameRun st evs).1 (Scrub.run st' evs).1 /\
  frameEq (frameRun st evs).1 (Scrub.run st' (List.filter notPaneEdit evs)).1 /\
  map snd (Scrub.run st' (List.filter notPaneEdit evs)).2 = (frameRun st evs).2.
Proof.
  revert st st'. induction evs as [| [now ev] rest IH]; intros st st' Heq.
  - cbn. split; [exact Heq | split; [exact Heq | reflexivity]].
  - destruct (frameEq_frameStep now ev st st' Heq) as [Hst Hout].
    destruct (step_frameStep now ev st') as [Hstep Hplay].
    pose proof (frameEq_trans _ _ _ Hst Hstep) as Hfull.
    replace (List.filter notPaneEdit ((now, ev) :: rest))
      with (if isPaneEdit ev then List.filter notPaneEdit rest
            else (now, ev) :: List.filter notPaneEdit rest)
      by (cbn [List.filter]; unfold notPaneEdit at 3; cbn [snd];
          destruct (isPaneEdit ev); reflexivity).
    destruct (isPaneEdit ev) eqn:Hpe; cbn [frameRun Scrub.run].
    + (* a pane edit: frame$ emits nothing and keeps its state *)
      destruct ev; try discriminate. cbn [Scrub.frameStep Scrub.step] in *.
      record_fields.
      destruct (IH st _ Hfull) as (IH1 & _ & _).
      destruct (IH st st' Heq) as (_ & IH2 & IH3).
      destruct (frameRun st rest) as [fs fout].
      destruct (Scrub.run _ rest) as [rs rout].
      record_fields. cbn [app].
      split; [exact IH1 | split; [exact IH2 | exact IH3]].
    + specialize (Hplay eq_refl).
      destruct (Scrub.frameStep now ev st) as [f1 fo1].
      destruct (Scrub.frameStep now ev st') as [f1' fo1'].
      destruct (Scrub.step now ev st') as [s1 so1].
      record_fields. subst fo1'.
      destruct (IH f1 s1 Hfull) as (IH1 & IH2 & IH3).
      destruct (frameRun f1 rest) as [fs fout].
      destruct (Scrub.run s1 rest) as [rs rout].
      destruct (Scrub.run s1 (List.filter notPaneEdit rest)) as [qs qout].
      record_fields.
      split; [exact IH1 | split; [exact IH2 |]].
      rewrite List.map_app. f_equal; assumption.
Qed.

(** X6: pane edits do not disturb the playhead stream: running the
    pipeline through a list of events leaves the slider value, the
    timeline, the clock and the current playhead exactly as running it
    with every pane edit removed, and the playheads delivered in the
    edit-free run are the ones frame$ emits in the full run. *)
Theorem pane_edits_keep_cadence (st : Scrub.State) (evs : list (R * Scrub.Event)) :
  frameEq (Scrub.run st evs).1 (Scrub.run st (List.filter notPaneEdit evs)).1 /\
  map snd (Scrub.run st (List.filter notPaneEdit evs)).2 = (frameRun st evs).2.
Proof.
  destruct (frameRun_run evs st st (frameEq_refl st)) as (H1 & H2 & H3).
  split; [| exact H3].
  apply frameEq_trans with (frameRun st evs).1; [| exact H2].
  destruct H1 as (K1 & K2 & K3 & K4 & K5). unfold frameEq. auto.
Qed.

Lemma one_render_step (now : R) (ev : Scrub.Event) (st : Scrub.State) :
  (Scrub.step now ev st).2 = [] \/
  (Scrub.step now ev st).2 =
    [(Scrub.values (Scrub.step now ev st).1, Scrub.playhead (Scrub.step now ev st).1)].
Proof.
  assert (Hslide : forall v,
            let r := Scrub.slide now v st in
            r.2 = [] \/ r.2 = [Scrub.playhead r.1]).
  { intros v. unfold Scrub.slide, Scrub.onTimeline.
    destruct (getNum _ "duration") as [d |]; [destruct (Req_dec_T d 0) |];
      cbn; tauto. }
  assert (Hpair : forall r : Scrub.State * list R,
            r.2 = [] \/ r.2 = [Scrub.playhead r.1] ->
            map (fun p => (Scrub.values r.1, p)) r.2 = [] \/
            map (fun p => (Scrub.values r.1, p)) r.2 =
              [(Scrub.values r.1, Scrub.playhead r.1)]).
  { intros r [-> | ->]; cbn; tauto. }
  destruct ev as [cx l w | cx cy l w tp h | v | key v |];
    cbn [Scrub.step Scrub.frameStep].
  - specialize (Hpair _ (Hslide (sliderFraction cx l w))).
    destruct (Scrub.slide now _ st) as [st' out]. exact Hpair.
  - specialize (Hpair _ (Hslide (circleFraction cx cy l w tp h))).
    destruct (Scrub.slide now _ st) as [st' out]. exact Hpair.
  - unfold Scrub.onTimeline.
    destruct (getNum _ "duration") as [d |]; [destruct (Req_dec_T d 0) |];
      cbn; tauto.
  - record_fields. now right.
  - destruct (Scrub.started st) as [start |];
      [destruct (getNum (Scrub.timeline st) "duration") as [d |] |];
      cbn; tauto.
Qed.

(** X7: every host event makes the renderer run at most once, and
    always on the snapshot and the playhead that are current after the
    event; a pane edit makes it run exactly once, with the playhead
    unchanged. *)
Theorem one_render_per_event (now : R) (ev : Scrub.Event) (st : Scrub.State) :
  let st' := (Scrub.step now ev st).1 in
  let out := (Scrub.step now ev st).2 in
  (out = [] \/ out = [(Scrub.values st', Scrub.playhead st')]) /\
  (isPaneEdit ev = true ->
   out = [(Scrub.values st', Scrub.playhead st)] /\
   Scrub.playhead st' = Scrub.playhead st).
Proof.
  cbv zeta. split; [apply one_render_step |].
  destruct ev; cbn [isPaneEdit]; try discriminate.
  intros _. cbn [Scrub.step]. record_fields. split; reflexivity.
Qed.

Lemma one_render_per_event_witness :
  (Scrub.step 7 (Scrub.PaneEdit "color2" (VStr "#fff")) (Scrub.init 0).1).2 =
    [((Scrub.step 7 (Scrub.PaneEdit "color2" (VStr "#fff")) (Scrub.init 0).1).1.(Scrub.values),
      Scrub.playhead (Scrub.init 0).1)].
Proof.
  apply (proj2 (one_render_per_event 7 (Scrub.PaneEdit "color2" (VStr "#fff"))
                                     (Scrub.init 0).1)).
  reflexivity.
Defined.

(** *** Stopping the animation *)

Lemma static_run (evs : list (R * Scrub.Event)) (st : Scrub.State) :
  Scrub.started st = None ->
  Forall (fun te => Scrub.keepsClock te.2) evs ->
  Forall (fun f : Frame => f.2 = Scrub.playhead st) (Scrub.run st evs).2 /\
  length (Scrub.run st evs).2 = length (List.filter (fun te => isPaneEdit te.2) evs) /\
  (frameRun st evs).2 = [].
Proof.
  revert st. induction evs as [| [now ev] rest IH]; intros st Hst Hall.
  - cbn. repeat split. constructor.
  - apply Forall_cons_iff in Hall. destruct Hall as [Hev Hrest].
    destruct ev as [cx l w | cx cy l w tp h | v | key v |];
      cbn [Scrub.keepsClock snd] in Hev; try contradiction;
      cbn [Scrub.run frameRun Scrub.step Scrub.frameStep List.filter isPaneEdit snd].
    + set (st1 := Scrub.mkState _ _ _ _ _ _).
      destruct (IH st1 Hst Hrest) as (IH1 & IH2 & _).
      destruct (IH st Hst Hrest) as (_ & _ & IH3).
      destruct (Scrub.run st1 rest) as [s2 o2].
      destruct (frameRun st rest) as [f2 fo2].
      record_fields. cbn [app length]. repeat split.
      * constructor; [reflexivity | exact IH1].
      * now rewrite IH2.
      * exact IH3.
    + rewrite Hst.
      destruct (IH st Hst Hrest) as (IH1 & IH2 & IH3).
      destruct (Scrub.run st rest) as [s2 o2].
      destruct (frameRun st rest) as [f2 fo2].
      record_fields. cbn [map app]. repeat split; assumption.
Qed.

(** X8: editing the duration to 0 delivers one frame whose playhead is
    the current slider value and unsubscribes the clock: from then on
    animation frames deliver nothing, frame$ stays silent, and every pane
    edit re-renders once with that same playhead. *)
Theorem stop_pins_to_slider (now : R) (st : Scrub.State)
        (evs : list (R * Scrub.Event)) :
  Forall (fun te => Scrub.keepsClock te.2) evs ->
  let st1 := (Scrub.step now (Scrub.DurationEdit 0) st).1 in
  (Scrub.step now (Scrub.DurationEdit 0) st).2 =
    [(Scrub.values st, Scrub.sliderValue st)] /\
  Scrub.started st1 = None /\
  Forall (fun f : Frame => f.2 = Scrub.sliderValue st) (Scrub.run st1 evs).2 /\
  length (Scrub.run st1 evs).2 =
    length (List.filter (fun te => isPaneEdit te.2) evs) /\
  (frameRun st1 evs).2 = [].
Proof.
  intros Hall. cbv zeta.
  assert (Hstep : Scrub.step now (Scrub.DurationEdit 0) st =
            (Scrub.mkState (Scrub.values st) (updateParam "duration" (VNum 0))
               (spread (Scrub.timeline st) (updateParam "duration" (VNum 0)))
               (Scrub.sliderValue st) None (Scrub.sliderValue st),
             [(Scrub.values st, Scrub.sliderValue st)])).
  { cbn [Scrub.step Scrub.frameStep].
    rewrite onTimeline_static by apply getNum_spread_eq. reflexivity. }
  rewrite Hstep. cbn [fst snd].
  set (st1 := Scrub.mkState _ _ _ _ _ _).
  split; [reflexivity |]. split; [reflexivity |].
  exact (static_run evs st1 eq_refl Hall).
Qed.

Lemma stop_pins_to_slider_witness :
  Forall (fun f : Frame => f.2 = 0.3)
    (Scrub.run (Scrub.step 9 (Scrub.DurationEdit 0)
                  (Scrub.mkState paneParams ∅ timelineParams 0.3 (Some 2) 0.8)).1
       [(10, Scrub.AnimationFrame); (11, Scrub.PaneEdit "color2" (VStr "#fff"))]).2.
Proof.
  apply (stop_pins_to_slider 9
           (Scrub.mkState paneParams ∅ timelineParams 0.3 (Some 2) 0.8)).
  repeat constructor.
Defined.

(** *** The clock of the looping sketch *)

(** X9: in the looping sketch every edit that leaves a positive duration
    d restarts the animation: the edit itself delivers nothing, and the
    frame arriving e ms later, for e below d * 1000, is drawn with playhead
    e / (d * 1000), whatever the clock showed before the edit. *)
Theorem loop_edit_restarts (now d e : R) (key : string) (v : value)
        (st : Loop.State) :
  getNum (spread (Loop.values st) (updateParam key v)) "duration" = Some d ->
  0 < d -> 0 <= e < d * 1000 ->
  let st1 := (Loop.step now (Loop.PaneEdit key v) st).1 in
  (Loop.step now (Loop.PaneEdit key v) st).2 = [] /\
  Loop.values st1 = spread (Loop.values st) (updateParam key v) /\
  (Loop.step (now + e) Loop.AnimationFrame st1).2 =
    [(Loop.values st1, e / (d * 1000))].
Proof.
  intros Hd Hpos He. cbv zeta.
  assert (Hstep : Loop.step now (Loop.PaneEdit key v) st =
            (Loop.mkState (spread (Loop.values st) (updateParam key v)) (Some now),
             [])).
  { cbn [Loop.step]. unfold Loop.onValues. rewrite Hd.
    destruct (Req_dec_T d 0) as [H0 | _]; [lra | reflexivity]. }
  rewrite Hstep. cbn [fst snd Loop.values].
  split; [reflexivity |]. split; [reflexivity |].
  cbn [Loop.step Loop.started Loop.values]. rewrite Hd.
  replace (now + e - now) with e by ring.
  assert (Hq : e / (d * 1000) < 1).
  { apply Rmult_lt_reg_r with (d * 1000); [lra |].
    replace (e / (d * 1000) * (d * 1000)) with e by (field; lra). lra. }
  rewrite Rmin_left by lra.
  destruct (Rlt_dec (e / (d * 1000)) 1) as [_ | Hn]; [reflexivity | contradiction].
Qed.

Lemma loop_edit_restarts_witness :
  (Loop.step (100 + 1000) Loop.AnimationFrame
     (Loop.step 100 (Loop.PaneEdit "duration" (VNum 4))
        (Loop.mkState Loop.paneParams (Some 0))).1).2 =
  [(Loop.values (Loop.step 100 (Loop.PaneEdit "duration" (VNum 4))
                   (Loop.mkState Loop.paneParams (Some 0))).1,
    1000 / (4 * 1000))].
Proof.
  apply (loop_edit_restarts 100 4 1000 "duration" (VNum 4)
           (Loop.mkState Loop.paneParams (Some 0))).
  - apply getNum_spread_eq.
  - lra.
  - lra.
Defined.

(** X10: while the looping sketch animates with a positive duration d, a
    frame arriving before the cycle is over is drawn with playhead
    elapsed / (d * 1000) and leaves the clock alone; the frame that
    completes the cycle is not drawn at all and restarts the clock at its
    own time. *)
Theorem loop_cycle (now start d : R) (vs : gmap string value) :
  getNum vs "duration" = Some d -> 0 < d -> start <= now ->
  let st := Loop.mkState vs (Some start) in
  (now - start < d * 1000 ->
   Loop.step now Loop.AnimationFrame st = (st, [(vs, (now - start) / (d * 1000))])) /\
  (d * 1000 <= now - start ->
   Loop.step now Loop.AnimationFrame st = (Loop.mkState vs (Some now), [])).
Proof.
  intros Hd Hpos Hle. cbv zeta. cbn [Loop.step Loop.started Loop.values].
  rewrite Hd.
  assert (Hmul : (now - start) / (d * 1000) * (d * 1000) = now - start)
    by (field; lra).
  split; intros Hcmp.
  - assert (Hq : (now - start) / (d * 1000) < 1) by nra.
    rewrite Rmin_left by lra.
    destruct (Rlt_dec _ 1) as [_ | Hn]; [reflexivity | contradiction].
  - assert (Hq : 1 <= (now - start) / (d * 1000)) by nra.
    rewrite Rmin_right by lra.
    destruct (Rlt_dec 1 1) as [Hn | _]; [lra | reflexivity].
Qed.

Lemma loop_cycle_witness :
  Loop.step 5000 Loop.AnimationFrame (Loop.mkState Loop.paneParams (Some 0)) =
  (Loop.mkState Loop.paneParams (Some 5000), []).
Proof.
  assert (Hd : getNum Loop.paneParams "duration" = Some 5)
    by apply getNum_insert_eq.
  apply (proj2 (loop_cycle 5000 0 5 Loop.paneParams Hd ltac:(lra) ltac:(lra))).
  lra.
Defined.

(** *** Where the circles are drawn *)

Lemma Forall_flat_map_In {A B : Type} (P : B -> Prop) (f : A -> list B) (l : list A) :
  (forall a, In a l -> Forall P (f a)) -> Forall P (flat_map f l).
Proof.
  induction l as [| a l IH]; intros H; cbn [flat_map]; [constructor |].
  apply Forall_app. split.
  - apply H. now left.
  - apply IH. intros b Hb. apply H. now right.
Qed.

Lemma unit_product (a b : R) : -1 <= a <= 1 -> -1 <= b <= 1 -> -1 <= a * b <= 1.
Proof. intros Ha Hb. split; nra. Qed.

Lemma cell_on_canvas (D i j : Z) (p : R) (values : PaneParams) :
  (1 <= D)%Z -> (- D <= i < D)%Z -> (- D <= j < D)%Z ->
  0 < width values -> 0 <= height values ->
  Forall (onCanvas (width values) (height values))
         (drawVector values (fieldVector (IZR D) p (IZR i) (IZR j))).
Proof.
  intros HD Hi Hj HW HH.
  destruct (cell_coord D HD i Hi) as (Hx & _).
  destruct (cell_coord D HD j Hj) as (Hy & _).
  destruct (cell_depth D i j HD Hi Hj p) as (Hr & _). cbv zeta in Hr.
  unfold fieldVector in *. cbn [vz] in Hr.
  set (r := sqrt ((IZR i / IZR D) ^ 2 + (IZR j / IZR D) ^ 2) / sqrt 2) in *.
  pose proof (SIN_bound (2 * (r + p) * PI)) as Ht.
  set (t := sin (2 * (r + p) * PI)) in *.
  assert (Hm : -1 <= (t + r) / 2 <= 1) by lra.
  pose proof (unit_product (IZR j / IZR D) ((t + r) / 2) ltac:(lra) Hm) as Hvy.
  unfold drawVector, drawCircle, projectVector, projectX, projectY.
  cbn [px py pw vx vy vz].
  repeat (apply Forall_cons_iff; split); cbn [onCanvas]; try exact I;
    [| constructor].
  split; split; nra.
Qed.

(** X11: for an integer dimension D >= 1 and a canvas of positive width
    and non-negative height, the centre of every circle of a frame lies on
    the canvas: its screen x is in [0, width) and its screen y in
    [0, height]. *)
Theorem circles_on_canvas (D : Z) (p : R) (values : PaneParams) :
  (1 <= D)%Z -> dimension values = IZR D ->
  0 < width values -> 0 <= height values ->
  Forall (onCanvas (width values) (height values)) (render values p).
Proof.
  intros HD Hdim HW HH. rewrite render_flat_map, Hdim.
  apply Forall_app. split.
  - repeat (apply Forall_cons_iff; split); cbn [onCanvas]; try exact I. constructor.
  - apply Forall_flat_map_In. intros v Hv.
    destruct (field_cells D p v Hv) as (i & j & Hi & Hj & ->).
    now apply cell_on_canvas.
Qed.

Lemma circles_on_canvas_witness :
  Forall (onCanvas 640 640) (render exampleParams 0.25).
Proof.
  apply (circles_on_canvas 1 0.25 exampleParams); cbn; try lia; lra.
Defined.

Lemma loop_from_map_ext {A B : Type} (g : A -> B) (body1 body2 : R -> list A)
      (n : nat) (i : R) :
  (forall k, map g (body1 k) = map g (body2 k)) ->
  map g (loop_from n i body1) = map g (loop_from n i body2).
Proof.
  intros Hext. revert i.
  induction n as [| n IH]; intros i; cbn [loop_from]; [reflexivity |].
  now rewrite !List.map_app, Hext, IH.
Qed.

(** X12: the playhead moves circles only vertically: two frames of the
    same snapshot at any two playheads consist of the same operations in
    the same order once the y coordinate of each circle is set aside, so
    the screen x, the radius and the colour of every circle do not depend
    on the playhead. *)
Theorem playhead_moves_y_only (values : PaneParams) (p q : R) :
  map dropY (render values p) = map dropY (render values q).
Proof.
  unfold render, for_range. rewrite !List.map_app. f_equal.
  apply loop_from_map_ext. intros i.
  apply loop_from_map_ext. intros j.
  reflexivity.
Qed.

Lemma iterations_nonpos (D : R) : D <= 0 -> iterations (- D) D = 0%nat.
Proof.
  intros HD. unfold iterations.
  destruct (base_Int_part (- (D - - D))) as [_ Hhi].
  assert (Hk : (0 <= Int_part (- (D - - D)))%Z).
  { apply Z.lt_succ_r. apply lt_IZR. rewrite succ_IZR. lra. }
  lia.
Qed.

Lemma iterations_pos (D : R) : 0 < D -> (1 <= iterations (- D) D)%nat.
Proof.
  intros HD. unfold iterations.
  destruct (base_Int_part (- (D - - D))) as [Hlo _].
  assert (Hk : (Int_part (- (D - - D)) < 0)%Z) by (apply lt_IZR; lra).
  lia.
Qed.

(** X13: a dimension that is zero or negative draws no circle at all:
    the frame is just the resize and the background fill; any positive
    dimension, integer or not, draws at least one circle. *)
Theorem render_without_cells (values : PaneParams) (p : R) :
  (dimension values <= 0 ->
   field (dimension values) p = [] /\
   render values p =
     [ SetHeight (height values); SetWidth (width values);
       SetFillStyle (color1 values);
       FillRect 0 0 (width values) (height values) ]) /\
  (0 < dimension values ->
   (1 <= length (List.filter isArc (render values p)))%nat).
Proof.
  split.
  - intros HD.
    assert (Hf : field (dimension values) p = []).
    { unfold field, for_range. now rewrite iterations_nonpos. }
    split; [exact Hf |]. now rewrite render_flat_map, Hf.
  - intros HD.
    rewrite render_flat_map, List.filter_app, length_app, circles_arcs, field_length.
    pose proof (iterations_pos _ HD). cbn [List.filter isArc length]. nia.
Qed.

Lemma render_without_cells_witness :
  render (mkPaneParams 64 64 0 0.1 1 5 "#000" "#111" "#222" "#333") 0 =
  [ SetHeight 64; SetWidth 64; SetFillStyle "#000"; FillRect 0 0 64 64 ].
Proof.
  apply (proj1 (render_without_cells
                  (mkPaneParams 64 64 0 0.1 1 5 "#000" "#111" "#222" "#333") 0)).
  cbn. lra.
Defined.

(** *** Typed edits and the renderer's record *)

Lemma lastWrite_In (key : string) (edits : list (string * value)) (v : value) :
  lastWrite key edits = Some v -> In (key, v) edits.
Proof.
  induction edits as [| [k w] rest IH]; [discriminate |].
  cbn [lastWrite]. destruct (lastWrite key rest) as [u |].
  - intros [= ->]. right. now apply IH.
  - destruct (decide (k = key)) as [-> | _]; [| discriminate].
    intros [= ->]. now left.
Qed.

Lemma In_take {A : Type} (x : A) (n : nat) (l : list A) : In x (take n l) -> In x l.
Proof.
  intros Hx. rewrite <- (firstn_skipn n l). apply in_or_app. now left.
Qed.

Lemma typed_number (edits : list (string * value)) (n : nat)
      (s : gmap string value) (key : string) :
  Forall wellTyped edits -> values_stream edits !! n = Some s ->
  In key numberKeys -> exists x, s !! key = Some (VNum x).
Proof.
  intros Hall Hs Hkey. rewrite (snapshots_lookup _ _ _ _ key Hs).
  destruct (lastWrite key (take n edits)) as [v |] eqn:Hw.
  - apply lastWrite_In, In_take in Hw.
    rewrite List.Forall_forall in Hall. specialize (Hall _ Hw).
    unfold wellTyped in Hall. cbn [fst snd] in Hall.
    destruct Hall as [[_ [x ->]] | [Hc _]]; [eauto |].
    cbn in Hkey, Hc. exfalso.
    repeat (destruct Hkey as [<- | Hkey];
            [repeat (destruct Hc as [Hc | Hc]; [discriminate Hc |]); exact Hc |]).
    exact Hkey.
  - cbn in Hkey. unfold paneParams.
    repeat (destruct Hkey as [<- | Hkey];
            [repeat (rewrite lookup_insert_ne by done);
             rewrite lookup_insert_eq; eauto |]).
    destruct Hkey.
Qed.

Lemma typed_colour (edits : list (string * value)) (n : nat)
      (s : gmap string value) (key : string) :
  Forall wellTyped edits -> values_stream edits !! n = Some s ->
  In key colorKeys -> exists c, s !! key = Some (VStr c).
Proof.
  intros Hall Hs Hkey. rewrite (snapshots_lookup _ _ _ _ key Hs).
  destruct (lastWrite key (take n edits)) as [v |] eqn:Hw.
  - apply lastWrite_In, In_take in Hw.
    rewrite List.Forall_forall in Hall. specialize (Hall _ Hw).
    unfold wellTyped in Hall. cbn [fst snd] in Hall.
    destruct Hall as [[Hc _] | [_ [c ->]]]; [| eauto].
    cbn in Hkey, Hc. exfalso.
    repeat (destruct Hkey as [<- | Hkey];
            [repeat (destruct Hc as [Hc | Hc]; [discriminate Hc |]); exact Hc |]).
    exact Hkey.
  - cbn in Hkey. unfold paneParams.
    repeat (destruct Hkey as [<- | Hkey];
            [repeat (rewrite lookup_insert_ne by done);
             rewrite lookup_insert_eq; eauto |]).
    destruct Hkey.
Qed.

(** X14: when every edit sends a number to a numeric field or a string
    to a colour field, every snapshot of the parameter stream can be read
    as the renderer's record, and each field of that record is the value
    the snapshot holds under that name. *)
Theorem typed_edits_decode (edits : list (string * value)) (n : nat)
        (s : gmap string value) :
  Forall wellTyped edits -> values_stream edits !! n = Some s ->
  exists params,
    toParams s = Some params /\
    s !! "height" = Some (VNum (height params)) /\
    s !! "width" = Some (VNum (width params)) /\
    s !! "dimension" = Some (VNum (dimension params)) /\
    s !! "gapModifier" = Some (VNum (gapModifier params)) /\
    s !! "depthScalar" = Some (VNum (depthScalar params)) /\
    s !! "baseSize" = Some (VNum (baseSize params)) /\
    s !! "color1" = Some (VStr (color1 params)) /\
    s !! "color2" = Some (VStr (color2 params)) /\
    s !! "color3" = Some (VStr (color3 params)) /\
    s !! "color4" = Some (VStr (color4 params)).
Proof.
  intros Hall Hs.
  destruct (typed_number edits n s "height" Hall Hs) as [h Hh]; [cbn; tauto |].
  destruct (typed_number edits n s "width" Hall Hs) as [w Hw]; [cbn; tauto |].
  destruct (typed_number edits n s "dimension" Hall Hs) as [d Hd]; [cbn; tauto |].
  destruct (typed_number edits n s "gapModifier" Hall Hs) as [g Hg]; [cbn; tauto |].
  destruct (typed_number edits n s "depthScalar" Hall Hs) as [ds Hds]; [cbn; tauto |].
  destruct (typed_number edits n s "baseSize" Hall Hs) as [bs Hbs]; [cbn; tauto |].
  destruct (typed_colour edits n s "color1" Hall Hs) as [c1 Hc1]; [cbn; tauto |].
  destruct (typed_colour edits n s "color2" Hall Hs) as [c2 Hc2]; [cbn; tauto |].
  destruct (typed_colour edits n s "color3" Hall Hs) as [c3 Hc3]; [cbn; tauto |].
  destruct (typed_colour edits n s "color4" Hall Hs) as [c4 Hc4]; [cbn; tauto |].
  exists (mkPaneParams h w d g ds bs c1 c2 c3 c4).
  unfold toParams, getNum, getStr.
  rewrite Hh, Hw, Hd, Hg, Hds, Hbs, Hc1, Hc2, Hc3, Hc4.
  cbn. repeat split; reflexivity.
Qed.

Lemma typed_edits_decode_witness :
  exists params,
    toParams (spread paneParams (updateParam "width" (VNum 800))) = Some params /\
    spread paneParams (updateParam "width" (VNum 800)) !! "width" =
      Some (VNum (width params)).
Proof.
  assert (Hall : Forall wellTyped [("width"%string, VNum 800)]).
  { apply Forall_cons_iff. split; [| constructor].
    left. split; [cbn; tauto | cbn; eauto]. }
  assert (Hs : values_stream [("width"%string, VNum 800)] !! 1%nat =
               Some (spread paneParams (updateParam "width" (VNum 800)))).
  { unfold values_stream, snapshots. cbn. now rewrite spread_empty. }
  destruct (typed_edits_decode _ _ _ Hall Hs) as (params & Hp & _ & Hw & _).
  exists params. split; assumption.
Defined.

Tactic Notation "read_field" hyp(H) constr(get) constr(key) ident(x) ident(Hx) :=
  destruct (get key) as [x |] eqn:Hx; [| discriminate H];
  cbn [mbind option_bind] in H.

Lemma toParams_inv (s : gmap string value) (p : PaneParams) :
  toParams s = Some p ->
  getNum s "height" = Some (height p) /\
  getNum s "width" = Some (width p) /\
  getNum s "dimension" = Some (dimension p) /\
  getNum s "gapModifier" = Some (gapModifier p) /\
  getNum s "depthScalar" = Some (depthScalar p) /\
  getNum s "baseSize" = Some (baseSize p) /\
  getStr s "color1" = Some (color1 p) /\
  getStr s "color2" = Some (color2 p) /\
  getStr s "color3" = Some (color3 p) /\
  getStr s "color4" = Some (color4 p).
Proof.
  unfold toParams. intros H.
  read_field H (getNum s) "height"%string h Hh.
  read_field H (getNum s) "width"%string w Hw.
  read_field H (getNum s) "dimension"%string d Hd.
  read_field H (getNum s) "gapModifier"%string g Hg.
  read_field H (getNum s) "depthScalar"%string ds Hds.
  read_field H (getNum s) "baseSize"%string bs Hbs.
  read_field H (getStr s) "color1"%string c1 Hc1.
  read_field H (getStr s) "color2"%string c2 Hc2.
  read_field H (getStr s) "color3"%string c3 Hc3.
  read_field H (getStr s) "color4"%string c4 Hc4.
  injection H as <-. cbn. repeat split; reflexivity.
Qed.

Lemma getStr_spread_ne (acc : gmap string value) (k key : string) (v : value) :
  k <> key -> getStr (spread acc (updateParam k v)) key = getStr acc key.
Proof.
  intros Hne. unfold getStr. rewrite spread_update_lookup.
  now destruct (decide (k = key)).
Qed.

(** X15: an edit of gapModifier changes that field of the renderer's
    record and no other: if a snapshot reads as the record p, the snapshot
    after the edit reads as p with gapModifier replaced by the new value
    and the other nine fields as they were, and the frame rendered from
    it is, at every playhead, the frame rendered from p. *)
Theorem gapModifier_edit_same_frame (s : gmap string value) (p : PaneParams) (g : R) :
  toParams s = Some p ->
  let p' := mkPaneParams (height p) (width p) (dimension p) g (depthScalar p)
                         (baseSize p) (color1 p) (color2 p) (color3 p) (color4 p) in
  toParams (spread s (updateParam "gapModifier" (VNum g))) = Some p' /\
  forall playhead, render p' playhead = render p playhead.
Proof.
  intros Hp. apply toParams_inv in Hp.
  destruct Hp as (Hh & Hw & Hd & _ & Hds & Hbs & Hc1 & Hc2 & Hc3 & Hc4).
  cbv zeta. split; [| intros playhead; reflexivity].
  unfold toParams.
  rewrite getNum_spread_eq.
  rewrite !getNum_spread_ne, !getStr_spread_ne by done.
  rewrite Hh, Hw, Hd, Hds, Hbs, Hc1, Hc2, Hc3, Hc4. reflexivity.
Qed.

Lemma gapModifier_edit_same_frame_witness :
  toParams (spread paneParams (updateParam "gapModifier" (VNum 0.9))) =
    Some (mkPaneParams 640 640 32 0.9 1 5 "#222831" "#393e46" "#00ADB5" "#EEEEEE") /\
  forall playhead,
    render (mkPaneParams 640 640 32 0.9 1 5 "#222831" "#393e46" "#00ADB5" "#EEEEEE")
           playhead =
    render defaultParams playhead.
Proof.
  apply (gapModifier_edit_same_frame paneParams defaultParams 0.9).
  reflexivity.
Defined.

(** *** The size-only sketch *)

Lemma sized_lookup (edits : list (string * value)) (n : nat)
      (s : gmap string value) (key : string) (default : R) :
  Forall Mini.sized edits -> Mini.values_stream edits !! n = Some s ->
  Mini.paneParams !! key = Some (VNum default) ->
  exists x, getNum s key = Some x /\
            match lastWrite key (take n edits) with
            | Some v => v = VNum x
            | None => x = default
            end.
Proof.
  intros Hall Hs Hdef. unfold getNum.
  rewrite (snapshots_lookup _ _ _ _ key Hs).
  destruct (lastWrite key (take n edits)) as [v |] eqn:Hw.
  - apply lastWrite_In, In_take in Hw.
    rewrite List.Forall_forall in Hall. specialize (Hall _ Hw).
    destruct Hall as [_ [x Hx]]. cbn [snd] in Hx. subst v. eauto.
  - rewrite Hdef. eauto.
Qed.

(** X16: in the size-only sketch, when every edit sends a number to
    height or width, the canvas is resized after every snapshot, to the
    height and width most recently written, or to 640 for a dimension
    never written; so an edit of one dimension leaves the other as it was. *)
Theorem mini_canvas_size (edits : list (string * value)) (n : nat)
        (s : gmap string value) :
  Forall Mini.sized edits -> Mini.values_stream edits !! n = Some s ->
  exists h w,
    Mini.resize s = Some [ SetHeight h; SetWidth w ] /\
    match lastWrite "height" (take n edits) with
    | Some v => v = VNum h
    | None => h = 640
    end /\
    match lastWrite "width" (take n edits) with
    | Some v => v = VNum w
    | None => w = 640
    end.
Proof.
  intros Hall Hs.
  destruct (sized_lookup edits n s "height" 640 Hall Hs) as (h & Hh & Hlast_h);
    [reflexivity |].
  destruct (sized_lookup edits n s "width" 640 Hall Hs) as (w & Hw & Hlast_w);
    [reflexivity |].
  exists h, w. unfold Mini.resize. rewrite Hh, Hw.
  split; [reflexivity | split; assumption].
Qed.

Lemma mini_canvas_size_witness :
  exists h w,
    Mini.resize (spread Mini.paneParams (updateParam "width" (VNum 800))) =
      Some [ SetHeight h; SetWidth w ] /\
    h = 640 /\ VNum 800 = VNum w.
Proof.
  assert (Hall : Forall Mini.sized [("width"%string, VNum 800)]).
  { apply Forall_cons_iff. split; [| constructor].
    split; [now right | cbn; eauto]. }
  assert (Hs : Mini.values_stream [("width"%string, VNum 800)] !! 1%nat =
               Some (spread Mini.paneParams (updateParam "width" (VNum 800)))).
  { unfold Mini.values_stream, snapshots. cbn. now rewrite spread_empty. }
  destruct (mini_canvas_size _ _ _ Hall Hs) as (h & w & Hr & Hh & Hw).
  exists h, w. cbn in Hh, Hw. repeat split; assumption.
Defined.

(** *** The snapshot the renderer sees *)

Lemma scan_last {A B : Type} (f : B -> A -> B) (xs : list A) (seed d : B) :
  xs <> [] -> List.last (scan f seed xs) d = fold_left f xs seed.
Proof.
  revert seed. induction xs as [| x xs IH]; intros seed Hne; [contradiction |].
  destruct xs as [| y xs]; [reflexivity |].
  change (scan f seed (x :: y :: xs)) with (f seed x :: scan f (f seed x) (y :: xs)).
  change (fold_left f (x :: y :: xs) seed) with (fold_left f (y :: xs) (f seed x)).
  rewrite <- IH by discriminate. reflexivity.
Qed.

Lemma snapshots_last (defaults d : gmap string value) (edits : list (string * value)) :
  List.last (snapshots defaults edits) d =
  fold_left spread (map (fun e => updateParam e.1 e.2) edits) defaults.
Proof.
  unfold snapshots. rewrite scan_last by discriminate.
  cbn [fold_left]. now rewrite spread_empty.
Qed.

Lemma frameStep_values (now : R) (ev : Scrub.Event) (st : Scrub.State) :
  Scrub.values (Scrub.frameStep now ev st).1 = Scrub.values st.
Proof.
  destruct ev as [cx l w | cx cy l w tp h | v | key v |];
    cbn [Scrub.frameStep]; unfold Scrub.slide.
  - destruct (Scrub.onTimeline now _ _). reflexivity.
  - destruct (Scrub.onTimeline now _ _). reflexivity.
  - destruct (Scrub.onTimeline now _ _). reflexivity.
  - reflexivity.
  - destruct (Scrub.started st); [destruct (getNum _ "duration") |]; reflexivity.
Qed.

Lemma run_values (evs : list (R * Scrub.Event)) (st : Scrub.State) :
  Scrub.values (Scrub.run st evs).1 =
  fold_left spread (map (fun e => updateParam e.1 e.2) (paneEdits evs)) (Scrub.values st).
Proof.
  revert st. induction evs as [| [now ev] rest IH]; intros st; [reflexivity |].
  cbn [Scrub.run paneEdits flat_map snd].
  assert (Hstep : Scrub.values (Scrub.step now ev st).1 =
            fold_left spread
              (map (fun e => updateParam e.1 e.2)
                   match ev with Scrub.PaneEdit key v => [(key, v)] | _ => [] end)
              (Scrub.values st)).
  { pose proof (frameStep_values now ev st) as Hf.
    destruct ev; cbn [Scrub.step];
      try (destruct (Scrub.frameStep now _ st); exact Hf).
    reflexivity. }
  destruct (Scrub.step now ev st) as [st1 out1]. specialize (IH st1).
  destruct (Scrub.run st1 rest) as [st2 out2]. record_fields.
  rewrite IH, Hstep, List.map_app, fold_left_app. reflexivity.
Qed.

Lemma run_frames_current (evs : list (R * Scrub.Event)) (st : Scrub.State) (f : Frame) :
  In f (Scrub.run st evs).2 ->
  exists k, f.1 = fold_left spread
                    (map (fun e => updateParam e.1 e.2) (take k (paneEdits evs)))
                    (Scrub.values st).
Proof.
  revert st. induction evs as [| [now ev] rest IH]; intros st; [intros [] |].
  cbn [Scrub.run paneEdits flat_map snd].
  pose proof (one_render_step now ev st) as Hone.
  pose proof (run_values [(now, ev)] st) as Hv.
  cbn [Scrub.run paneEdits flat_map snd] in Hv. rewrite app_nil_r in Hv.
  destruct (Scrub.step now ev st) as [st1 out1]. specialize (IH st1).
  destruct (Scrub.run st1 rest) as [st2 out2]. record_fields. cbn [app] in Hv.
  set (mine := match ev with Scrub.PaneEdit key v => [(key, v)] | _ => [] end) in *.
  intros Hin. apply in_app_or in Hin. destruct Hin as [Hin | Hin].
  - exists (length mine). rewrite take_app_length.
    destruct Hone as [-> | ->]; [destruct Hin |].
    destruct Hin as [<- | []]. exact Hv.
  - destruct (IH Hin) as [k Hk]. exists (length mine + k)%nat.
    rewrite take_app_add', List.map_app, fold_left_app by reflexivity.
    now rewrite <- Hv.
Qed.

Lemma scan_prefix_In {A B : Type} (f : B -> A -> B) (xs : list A) (seed : B) (k : nat) :
  In (fold_left f (take k xs) seed) (seed :: scan f seed xs).
Proof.
  revert seed k. induction xs as [| x xs IH]; intros seed k.
  - rewrite take_nil. now left.
  - destruct k as [| k]; [now left |].
    right. cbn [take firstn fold_left scan]. apply IH.
Qed.

Lemma snapshots_prefix_In (defaults : gmap string value)
      (edits : list (string * value)) (k : nat) :
  In (fold_left spread (map (fun e => updateParam e.1 e.2) (take k edits)) defaults)
     (snapshots defaults edits).
Proof.
  unfold snapshots. cbn [scan]. rewrite spread_empty, <- firstn_map.
  apply scan_prefix_In.
Qed.

(** X17: the snapshot the scrub-enabled sketch holds after any events is
    the last one of the parameter stream for the pane edits among them,
    and every frame delivered carries one of the snapshots of that stream:
    slider moves, duration edits and animation frames never alter the
    parameters the renderer is given. *)
Theorem renderer_sees_fold (t0 : R) (evs : list (R * Scrub.Event)) :
  Scrub.values (Scrub.run (Scrub.init t0).1 evs).1 =
    List.last (values_stream (paneEdits evs)) paneParams /\
  Forall (fun f : Frame => In f.1 (values_stream (paneEdits evs)))
         (Scrub.delivered t0 evs).
Proof.
  unfold Scrub.delivered, values_stream. rewrite Scrub_init_eq. cbn [fst].
  split.
  - rewrite run_values, snapshots_last. reflexivity.
  - apply List.Forall_forall. intros f Hf. cbn [app] in Hf.
    destruct Hf as [<- | Hf].
    + cbn [fst]. apply (snapshots_prefix_In paneParams (paneEdits evs) 0).
    + destruct (run_frames_current _ _ _ Hf) as [k ->].
      apply snapshots_prefix_In.
Qed.

(** *** The state of the looping sketch *)

Lemma loop_onValues_clock (now : R) (vs : gmap string value) :
  Loop.values (Loop.onValues now vs).1 = vs /\
  (Loop.started (Loop.onValues now vs).1 = None <-> getNum vs "duration" = Some 0).
Proof.
  unfold Loop.onValues. destruct (getNum vs "duration") as [d |].
  - destruct (Req_dec_T d 0) as [-> | Hne]; cbn; split; try reflexivity.
    + tauto.
    + split; [discriminate | intros [= H]; contradiction].
  - cbn. split; [reflexivity |]. split; discriminate.
Qed.

Lemma loop_step_clock (now : R) (ev : Loop.Event) (st : Loop.State) :
  (Loop.started st = None <-> getNum (Loop.values st) "duration" = Some 0) ->
  let st' := (Loop.step now ev st).1 in
  Loop.values st' =
    fold_left spread
      (map (fun e => updateParam e.1 e.2)
           match ev with Loop.PaneEdit key v => [(key, v)] | _ => [] end)
      (Loop.values st) /\
  (Loop.started st' = None <-> getNum (Loop.values st') "duration" = Some 0).
Proof.
  intros Hiff. cbv zeta. destruct ev as [key v |]; cbn [Loop.step map fold_left fst snd].
  - destruct (loop_onValues_clock now (spread (Loop.values st) (updateParam key v)))
      as [Hv Hc].
    rewrite Hv in *. split; [reflexivity | exact Hc].
  - destruct (Loop.started st) as [start |] eqn:Hst;
      [| cbn; rewrite Hst; split; [reflexivity | exact Hiff]].
    destruct (getNum (Loop.values st) "duration") as [d |] eqn:Hd;
      [| cbn; rewrite Hst, Hd; split; [reflexivity | exact Hiff]].
    destruct (Rlt_dec _ 1); cbn; rewrite ?Hst, Hd; split; try reflexivity;
      try exact Hiff.
    split; [discriminate |]. intros H0. apply Hiff in H0. discriminate.
Qed.

(** X18: in every state the looping sketch reaches from start-up, the
    snapshot held is the last one of the parameter stream for the edits
    made so far, and the animation clock is subscribed exactly when the
    duration in that snapshot is not the number 0. *)
Theorem loop_state_follows_edits (t0 : R) (evs : list (R * Loop.Event)) :
  let st := (Loop.run (Loop.init t0).1 evs).1 in
  Loop.values st =
    List.last (snapshots Loop.paneParams (loopEdits evs)) Loop.paneParams /\
  (Loop.started st = None <-> getNum (Loop.values st) "duration" = Some 0).
Proof.
  cbv zeta. rewrite Loop_init_eq, snapshots_last. cbn [fst].
  assert (H0 : Loop.started (Loop.mkState Loop.paneParams (Some t0)) = None <->
               getNum (Loop.values (Loop.mkState Loop.paneParams (Some t0)))
                      "duration" = Some 0).
  { cbn. unfold Loop.paneParams. rewrite getNum_insert_eq.
    split; [discriminate | intros [= H]; lra]. }
  change Loop.paneParams with (Loop.values (Loop.mkState Loop.paneParams (Some t0)))
    at 2.
  revert H0. generalize (Loop.mkState Loop.paneParams (Some t0)).
  induction evs as [| [now ev] rest IH]; intros st Hiff; [split; [reflexivity | exact Hiff] |].
  cbn [Loop.run loopEdits flat_map snd].
  destruct (loop_step_clock now ev st Hiff) as [Hv Hc].
  destruct (Loop.step now ev st) as [st1 out1]. cbn [fst] in Hv, Hc.
  specialize (IH st1 Hc). destruct (Loop.run st1 rest) as [st2 out2].
  cbn [fst] in *. destruct IH as [IHv IHc]. split; [| exact IHc].
  rewrite IHv, Hv, List.map_app, fold_left_app. reflexivity.
Qed.

(** *** Scrubbing *)

(** X19: in a state the sketch can reach, a move of the linear slider to
    the reading v is rendered at once with playhead v while the duration
    in effect is 0; while it is some d other than 0 the move renders
    nothing, keeps the playhead shown, and restarts the clock so that the
    frame arriving e ms later is drawn at (v + (e mod (d*1000)) / (d*1000))
    mod 1. *)
Theorem scrub_rephases (now e clientX l w d : R) (st : Scrub.State) :
  coherent st -> getNum (Scrub.timeline st) "duration" = Some d ->
  let v := sliderFraction clientX l w in
  let r := Scrub.step now (Scrub.SliderPointer clientX l w) st in
  (d = 0 -> r.2 = [(Scrub.values st, v)] /\ Scrub.playhead r.1 = v) /\
  (d <> 0 ->
   r.2 = [] /\ Scrub.playhead r.1 = Scrub.playhead st /\
   (Scrub.step (now + e) Scrub.AnimationFrame r.1).2 =
     [(Scrub.values st, Scrub.animated v d e)]).
Proof.
  intros (_ & _ & Hsub) Hd. rewrite Hd in Hsub. cbv zeta.
  cbn [Scrub.step Scrub.frameStep]. unfold Scrub.slide. split.
  - intros ->. rewrite onTimeline_static by exact Hsub.
    cbn. split; reflexivity.
  - intros Hne.
    rewrite (onTimeline_animated now _ d) by assumption.
    cbn [fst snd map lastOr List.last Scrub.values Scrub.playhead].
    split; [reflexivity |]. split; [reflexivity |].
    cbn [Scrub.step Scrub.frameStep Scrub.started Scrub.timeline Scrub.sliderValue].
    rewrite Hsub. cbn [fst snd map Scrub.values].
    replace (now + e - now) with e by ring. reflexivity.
Qed.

Lemma scrub_rephases_witness :
  (Scrub.step 3 (Scrub.SliderPointer 30 0 100) (Scrub.init 0).1).2 =
  [(Scrub.values (Scrub.init 0).1, sliderFraction 30 0 100)].
Proof.
  assert (Hco : coherent (Scrub.init 0).1)
    by (rewrite Scrub_init_eq; apply coherent_start).
  assert (Hd : getNum (Scrub.timeline (Scrub.init 0).1) "duration" = Some 0).
  { rewrite Scrub_init_eq. apply getNum_timelineParams. }
  apply (proj1 (scrub_rephases 3 0 30 0 100 0 (Scrub.init 0).1 Hco Hd)).
  reflexivity.
Defined.
